(** * The grammar symbol table (backend/ContextSymbolTable.ts)

    A shallow embedding of [ContextSymbolTable], the scoped symbol table the
    ANTLR4 grammar tooling builds for every grammar file, together with the
    part of the symbol-table runtime (antlr4-c3) and of the parse-tree
    runtime (antlr4ng) its methods call.

    Objects are values here.  A symbol carries an identity ([ident], standing
    for the object's address) so that the identity-based [Set] of the source
    can be followed; a table lists its dependency tables as values; the
    parent link of a symbol, which the runtime reads through
    [symbol.symbolTable] and [symbol.root], is kept by pairing every symbol a
    traversal hands out with the table that holds it ([SymbolRef]). *)

From Stdlib Require Import List String Ascii ZArith Bool Arith Lia Sorted.
Import ListNotations.
Local Open Scope string_scope.
Local Open Scope list_scope.

(** ** Enumerations of types.ts

    The members the table's code names; the members it never names are
    gathered under [Other]. *)

Module SymbolKind.
Inductive t : Set :=
| Unknown | Terminal | TokenVocab | Import
| BuiltInLexerToken | VirtualLexerToken | FragmentLexerToken | LexerRule
| BuiltInMode | LexerMode | BuiltInChannel | TokenChannel | ParserRule
| Other (tag : nat).

Definition eq_dec (a b : t) : {a = b} + {a <> b}.
Proof. decide equality. apply Nat.eq_dec. Defined.
End SymbolKind.

Module SymbolGroupKind.
Inductive t : Set := TokenRef | RuleRef | LexerMode | TokenChannel | Other (tag : nat).
End SymbolGroupKind.

Module CodeActionType.
Inductive t : Set :=
| GlobalNamed | LocalNamed | ParserAction | LexerAction | ParserPredicate | LexerPredicate.
End CodeActionType.

(** ** Parse trees (antlr4ng)

    A node exposes its token interval and its text; only a rule context has
    a [children] array. *)

Record Interval : Set := { start : Z; stop : Z }.

Unset Elimination Schemes.
Inductive ParseTree : Set :=
| ParserRuleContext (interval : Interval) (text : string) (children : list ParseTree)
| TerminalNode (interval : Interval) (text : string).
Set Elimination Schemes.

Definition getSourceInterval (ctx : ParseTree) : Interval :=
  match ctx with
  | ParserRuleContext i _ _ => i
  | TerminalNode i _ => i
  end.

Definition getText (ctx : ParseTree) : string :=
  match ctx with
  | ParserRuleContext _ s _ => s
  | TerminalNode _ s => s
  end.

(** What a JavaScript statement yields: a value, or a thrown [TypeError]. *)
Inductive Completion (A : Type) : Type :=
| Normal (a : A)
| TypeError.
Arguments Normal {A} a.
Arguments TypeError {A}.

(** [(ctx as ParserRuleContext).children[i]]: reading an index past the end
    of an array yields [undefined]; a terminal node has no [children]
    property, and indexing [undefined] throws. *)
Definition childAt (ctx : ParseTree) (i : nat) : Completion (option ParseTree) :=
  match ctx with
  | ParserRuleContext _ _ cs => Normal (nth_error cs i)
  | TerminalNode _ _ => TypeError
  end.

(** ** Records of types.ts and helpers.ts *)

Record Position : Set := { column : Z; row : Z }.
Record LexicalRange : Set := { range_start : Position; range_end : Position }.
Record IDefinition : Set := { def_text : string; def_range : LexicalRange }.

Record ISymbolInfo : Set := {
  info_kind : SymbolKind.t;
  info_name : string;
  info_source : string;
  info_definition : option IDefinition;
  info_description : option string
}.

Record ISourceContext : Set := { sourceId : string; fileName : string }.

(** ** Symbols

    The classes of parser-symbols/ the table tests with [instanceof]; every
    other class is an [OtherSymbol].  A symbol that is a [ScopedSymbol] has a
    [scope], the array of its children. *)

Inductive SymbolClass : Set :=
| ImportSymbol | BuiltInTokenSymbol | VirtualTokenSymbol | FragmentTokenSymbol
| TokenSymbol | BuiltInModeSymbol | LexerModeSymbol | BuiltInChannelSymbol
| TokenChannelSymbol | RuleSymbol
| GlobalNamedActionSymbol | LocalNamedActionSymbol | LexerPredicateSymbol
| OtherSymbol (tag : nat).

Definition SymbolClass_eq_dec (a b : SymbolClass) : {a = b} + {a <> b}.
Proof. decide equality. apply Nat.eq_dec. Defined.

Definition classEqb (a b : SymbolClass) : bool :=
  if SymbolClass_eq_dec a b then true else false.

Unset Elimination Schemes.
Inductive BaseSymbol : Set :=
| Symbol (ident : nat) (cls : SymbolClass) (name : string)
         (context : option ParseTree) (scope : option (list BaseSymbol)).
Set Elimination Schemes.

Definition sym_ident (s : BaseSymbol) : nat :=
  match s with Symbol i _ _ _ _ => i end.
Definition sym_class (s : BaseSymbol) : SymbolClass :=
  match s with Symbol _ c _ _ _ => c end.
Definition sym_name (s : BaseSymbol) : string :=
  match s with Symbol _ _ n _ _ => n end.
Definition sym_context (s : BaseSymbol) : option ParseTree :=
  match s with Symbol _ _ _ c _ => c end.
Definition sym_scope (s : BaseSymbol) : option (list BaseSymbol) :=
  match s with Symbol _ _ _ _ k => k end.

(** The constructors handed to [getAllSymbolsSync]: [BaseSymbol] itself, or
    one of the classes above. *)
Inductive SymbolConstructor : Set :=
| AnySymbol
| OfClass (c : SymbolClass).

(** [symbol instanceof t] *)
Definition instanceOf (t : SymbolConstructor) (s : BaseSymbol) : bool :=
  match t with
  | AnySymbol => true
  | OfClass c => classEqb (sym_class s) c
  end.

(** ** The table *)

Unset Elimination Schemes.
Inductive ContextSymbolTable : Set :=
| SymbolTable (tname : string)
              (owner : option ISourceContext)
              (tree : option ParseTree)
              (children : list BaseSymbol)
              (dependencies : list ContextSymbolTable)
              (symbolReferences : list (string * nat))
              (namedActions parserActions lexerActions
               parserPredicates lexerPredicates : list BaseSymbol).
Set Elimination Schemes.

Definition tbl_name (t : ContextSymbolTable) :=
  match t with SymbolTable n _ _ _ _ _ _ _ _ _ _ => n end.
Definition owner (t : ContextSymbolTable) :=
  match t with SymbolTable _ o _ _ _ _ _ _ _ _ _ => o end.
Definition tree (t : ContextSymbolTable) :=
  match t with SymbolTable _ _ x _ _ _ _ _ _ _ _ => x end.
Definition children (t : ContextSymbolTable) :=
  match t with SymbolTable _ _ _ c _ _ _ _ _ _ _ => c end.
Definition dependencies (t : ContextSymbolTable) :=
  match t with SymbolTable _ _ _ _ d _ _ _ _ _ _ => d end.
Definition symbolReferences (t : ContextSymbolTable) :=
  match t with SymbolTable _ _ _ _ _ r _ _ _ _ _ => r end.
Definition namedActions (t : ContextSymbolTable) :=
  match t with SymbolTable _ _ _ _ _ _ a _ _ _ _ => a end.
Definition parserActions (t : ContextSymbolTable) :=
  match t with SymbolTable _ _ _ _ _ _ _ a _ _ _ => a end.
Definition lexerActions (t : ContextSymbolTable) :=
  match t with SymbolTable _ _ _ _ _ _ _ _ a _ _ => a end.
Definition parserPredicates (t : ContextSymbolTable) :=
  match t with SymbolTable _ _ _ _ _ _ _ _ _ a _ => a end.
Definition lexerPredicates (t : ContextSymbolTable) :=
  match t with SymbolTable _ _ _ _ _ _ _ _ _ _ a => a end.

(** [new ContextSymbolTable(name, options, owner)] *)
Definition newTable (name : string) (o : option ISourceContext) : ContextSymbolTable :=
  SymbolTable name o None [] [] [] [] [] [] [] [].

(** A symbol together with the table its parent chain ends in
    ([symbol.symbolTable]; for a direct child of a table this is also
    [symbol.root]).  [None] stands for a symbol attached to no table. *)
Record SymbolRef : Set := {
  ref_symbol : BaseSymbol;
  ref_table : option ContextSymbolTable
}.

(** ** The symbol-table runtime (antlr4-c3)

    [ScopedSymbol.resolveSync] returns the first child with the given name
    and, unless [localOnly], lets the parent continue; a table has no
    parent, and [SymbolTable.resolveSync] then asks the dependencies in
    insertion order, not locally. *)

Definition findByName (name : string) (l : list BaseSymbol) : option BaseSymbol :=
  find (fun child => String.eqb (sym_name child) name) l.

Fixpoint resolveSync (t : ContextSymbolTable) (name : string) (localOnly : bool)
  : option SymbolRef :=
  match t with
  | SymbolTable _ _ _ cs deps _ _ _ _ _ _ =>
    match findByName name cs with
    | Some s => Some {| ref_symbol := s; ref_table := Some t |}
    | None =>
      if localOnly then None
      else
        (fix firstOf (ds : list ContextSymbolTable) : option SymbolRef :=
           match ds with
           | [] => None
           | d :: rest =>
             match resolveSync d name false with
             | Some r => Some r
             | None => firstOf rest
             end
           end) deps
    end
  end.

(** [symbol.resolveSync(name, localOnly)] on a direct child [s] of table
    [t]: a scoped symbol searches its own children first; a plain symbol
    delegates to its parent at once. *)
Definition resolveInSymbol (t : ContextSymbolTable) (s : BaseSymbol)
           (name : string) (localOnly : bool) : option SymbolRef :=
  match sym_scope s with
  | Some ks =>
    match findByName name ks with
    | Some c => Some {| ref_symbol := c; ref_table := Some t |}
    | None => if localOnly then None else resolveSync t name false
    end
  | None => resolveSync t name localOnly
  end.

(** [SymbolTable.getAllSymbolsSync(t, localOnly)]: the children that are
    instances of [t], in insertion order, then (unless [localOnly]) those of
    every dependency.  None of the grammar's symbol classes is a namespace,
    so the runtime's descent into namespace children never applies. *)
Fixpoint getAllSymbolsSync (t : ContextSymbolTable) (c : SymbolConstructor)
         (localOnly : bool) : list SymbolRef :=
  match t with
  | SymbolTable _ _ _ cs deps _ _ _ _ _ _ =>
    map (fun s => {| ref_symbol := s; ref_table := Some t |}) (filter (instanceOf c) cs)
    ++ (if localOnly then []
        else
          (fix each (ds : list ContextSymbolTable) : list SymbolRef :=
             match ds with
             | [] => []
             | d :: rest => getAllSymbolsSync d c localOnly ++ each rest
             end) deps)
  end.

(** [ScopedSymbol.getAllNestedSymbolsSync(name)], applied to the children
    array of the scoped symbol: the test is [!name || child.name === name],
    and the empty string is falsy. *)
Fixpoint nestedOf (name : string) (s : BaseSymbol) : list BaseSymbol :=
  match s with
  | Symbol _ _ n _ ks =>
    (if String.eqb name "" || String.eqb n name then [s] else [])
    ++ match ks with
       | Some l =>
         (fix each (l : list BaseSymbol) : list BaseSymbol :=
            match l with
            | [] => []
            | k :: rest => nestedOf name k ++ each rest
            end) l
       | None => []
       end
  end.

Definition getAllNestedSymbolsSync (name : string) (ks : list BaseSymbol)
  : list BaseSymbol :=
  flat_map (nestedOf name) ks.

(** [new Set(symbols)] iterated: every object once, at its first position. *)
Fixpoint uniqueRefs (seen : list nat) (l : list SymbolRef) : list SymbolRef :=
  match l with
  | [] => []
  | r :: rest =>
    if existsb (Nat.eqb (sym_ident (ref_symbol r))) seen
    then uniqueRefs seen rest
    else r :: uniqueRefs (sym_ident (ref_symbol r) :: seen) rest
  end.

(** [SymbolTable.clear()] of the runtime empties the children and the
    dependency set; the remaining fields belong to [ContextSymbolTable]. *)
Definition runtimeClear (t : ContextSymbolTable) : ContextSymbolTable :=
  match t with
  | SymbolTable n o tr _ _ refs na pa la pp lp => SymbolTable n o tr [] [] refs na pa la pp lp
  end.

(** ** JavaScript maps and strings *)

(** [Map.get] and [Map.set] on the reference counter; a [Map] keeps the
    position of a key that is set again. *)
Fixpoint mapGet (k : string) (m : list (string * nat)) : option nat :=
  match m with
  | [] => None
  | (k', v) :: rest => if String.eqb k' k then Some v else mapGet k rest
  end.

Fixpoint mapSet (k : string) (v : nat) (m : list (string * nat)) : list (string * nat) :=
  match m with
  | [] => [(k, v)]
  | (k', v') :: rest =>
    if String.eqb k' k then (k, v) :: rest else (k', v') :: mapSet k v rest
  end.

(** [s.includes(sub)] *)
Fixpoint includes (s sub : string) : bool :=
  String.prefix sub s
  || match s with
     | EmptyString => false
     | String _ s' => includes s' sub
     end.

(** ** Calls on the owning source context

    [clear] talks to the file registry; the calls it issues are recorded in
    the order they are made. *)
Inductive OwnerCall : Set :=
| RemoveDependency (receiver : ISourceContext) (context : ISourceContext).

(** ** The methods of ContextSymbolTable *)

Module Table.
Section Methods.

(** helpers.ts: the kind of a symbol and the reported span of a node. *)
Variable getKindFromSymbol : BaseSymbol -> SymbolKind.t.
Variable definitionForContext : option ParseTree -> bool -> option IDefinition.
(** antlr4ng: [Interval.properlyContains]. *)
Variable properlyContains : Interval -> Interval -> bool.
(** [String.prototype.toLowerCase] *)
Variable toLowerCase : string -> string.

(** *** clear *)

Definition clearCalls (t : ContextSymbolTable) : list OwnerCall :=
  match owner t with
  | Some o =>
    flat_map (fun dep =>
                match owner dep with
                | Some d => [RemoveDependency o d]
                | None => []
                end) (dependencies t)
  | None => []
  end.

Definition clear (t : ContextSymbolTable) : ContextSymbolTable * list OwnerCall :=
  let calls := clearCalls t in
  let t' :=
    match t with
    | SymbolTable n o tr cs deps _ _ _ _ _ _ =>
      SymbolTable n o tr cs deps [] [] [] [] [] []
    end in
  (runtimeClear t', calls).

(** *** Kind-directed lookups *)

Definition getSymbolOfType (t : ContextSymbolTable) (name : string)
           (kind : SymbolKind.t) (localOnly : bool) : option SymbolRef :=
  match kind with
  | SymbolKind.TokenVocab =>
    match resolveSync t "options" true with
    | Some options => resolveInSymbol t (ref_symbol options) name localOnly
    | None => None
    end
  | SymbolKind.Import => resolveSync t name localOnly
  | SymbolKind.BuiltInLexerToken => resolveSync t name localOnly
  | SymbolKind.VirtualLexerToken => resolveSync t name localOnly
  | SymbolKind.FragmentLexerToken => resolveSync t name localOnly
  | SymbolKind.LexerRule => resolveSync t name localOnly
  | SymbolKind.BuiltInMode => resolveSync t name localOnly
  | SymbolKind.LexerMode => resolveSync t name localOnly
  | SymbolKind.BuiltInChannel => resolveSync t name localOnly
  | SymbolKind.TokenChannel => resolveSync t name localOnly
  | SymbolKind.ParserRule => resolveSync t name localOnly
  | _ => None
  end.

Definition isDefined {A : Type} (o : option A) : bool :=
  match o with Some _ => true | None => false end.

Definition symbolExists (t : ContextSymbolTable) (name : string)
           (kind : SymbolKind.t) (localOnly : bool) : bool :=
  isDefined (getSymbolOfType t name kind localOnly).

Definition symbolExistsInGroup (t : ContextSymbolTable) (symbol : string)
           (kind : SymbolGroupKind.t) (localOnly : bool) : bool :=
  match kind with
  | SymbolGroupKind.TokenRef =>
    if symbolExists t symbol SymbolKind.BuiltInLexerToken localOnly then true
    else if symbolExists t symbol SymbolKind.VirtualLexerToken localOnly then true
    else if symbolExists t symbol SymbolKind.FragmentLexerToken localOnly then true
    else if symbolExists t symbol SymbolKind.LexerRule localOnly then true
    else false
  | SymbolGroupKind.LexerMode =>
    if symbolExists t symbol SymbolKind.BuiltInMode localOnly then true
    else if symbolExists t symbol SymbolKind.LexerMode localOnly then true
    else false
  | SymbolGroupKind.TokenChannel =>
    if symbolExists t symbol SymbolKind.BuiltInChannel localOnly then true
    else if symbolExists t symbol SymbolKind.TokenChannel localOnly then true
    else false
  | SymbolGroupKind.RuleRef =>
    if symbolExists t symbol SymbolKind.ParserRule localOnly then true
    else false
  | SymbolGroupKind.Other _ => false
  end.

Definition contextForSymbol (t : ContextSymbolTable) (symbolName : string)
           (kind : SymbolKind.t) (localOnly : bool) : option ParseTree :=
  match getSymbolOfType t symbolName kind localOnly with
  | None => None
  | Some symbol => sym_context (ref_symbol symbol)
  end.

(** *** getSymbolInfo *)

(** [symbolTable.owner] of a symbol, when both exist. *)
Definition tableOwner (r : SymbolRef) : option ISourceContext :=
  match ref_table r with
  | Some tb => owner tb
  | None => None
  end.

(** The callback of the TokenVocab/Import branch; what it returns goes
    back to [forEach]. *)
Definition dependentModule (kind : SymbolKind.t) (name : string)
           (table : ContextSymbolTable) : option ISymbolInfo :=
  match owner table with
  | Some o =>
    if includes (sourceId o) name
    then Some {| info_kind := kind;
                 info_name := name;
                 info_source := fileName o;
                 info_definition := definitionForContext (tree table) true;
                 info_description := None |}
    else None
  | None => None
  end.

(** [Array.prototype.forEach] / [Set.prototype.forEach]: the callback runs
    on every element and its results are dropped. *)
Definition forEach {A B S : Type} (cb : S -> A -> S * B) (l : list A) (s : S) : S :=
  fold_left (fun acc x => fst (cb acc x)) l s.

(** The callback of the Terminal branch, acting on the captured variables
    [symbol] and [kind]. *)
Definition dependingGrammar (name : string) (captured : SymbolRef * SymbolKind.t)
           (table : ContextSymbolTable) : (SymbolRef * SymbolKind.t) * unit :=
  match resolveSync table name false with
  | Some actualSymbol => ((actualSymbol, getKindFromSymbol (ref_symbol actualSymbol)), tt)
  | None => (captured, tt)
  end.

Definition getSymbolInfo (t : ContextSymbolTable) (symbol : string + SymbolRef)
  : option ISymbolInfo :=
  match (match symbol with
         | inl n => resolveSync t n false
         | inr s => Some s
         end) with
  | None => None
  | Some symbol =>
    let kind := getKindFromSymbol (ref_symbol symbol) in
    let name := sym_name (ref_symbol symbol) in
    let '(symbol, kind) :=
      match kind with
      | SymbolKind.TokenVocab | SymbolKind.Import =>
        forEach (fun captured table => (captured, dependentModule kind name table))
                (dependencies t) (symbol, kind)
      | SymbolKind.Terminal =>
        forEach (dependingGrammar name) (dependencies t) (symbol, kind)
      | _ => (symbol, kind)
      end in
    Some {| info_kind := kind;
            info_name := name;
            info_source :=
              match sym_context (ref_symbol symbol), tableOwner symbol with
              | Some _, Some o => fileName o
              | _, _ => "ANTLR runtime"
              end;
            info_definition := definitionForContext (sym_context (ref_symbol symbol)) true;
            info_description := None |}
  end.

(** *** listTopLevelSymbols *)

Definition symbolsOfType (t : ContextSymbolTable) (c : SymbolConstructor)
           (localOnly : bool) : list ISymbolInfo :=
  let symbols := getAllSymbolsSync t c localOnly in
  let filtered := uniqueRefs [] symbols in
  map (fun symbol =>
         {| info_kind := getKindFromSymbol (ref_symbol symbol);
            info_name := sym_name (ref_symbol symbol);
            info_source :=
              match tableOwner symbol with
              | Some o => fileName o
              | None => "ANTLR runtime"
              end;
            info_definition := definitionForContext (sym_context (ref_symbol symbol)) true;
            info_description := None |}) filtered.

Definition tokenVocabEntry (t : ContextSymbolTable) : list ISymbolInfo :=
  match resolveSync t "options" true with
  | Some options =>
    match resolveInSymbol t (ref_symbol options) "tokenVocab" true with
    | Some tokenVocab =>
      match getSymbolInfo t (inr tokenVocab) with
      | Some value => [value]
      | None => []
      end
    | None => []
    end
  | None => []
  end.

Definition listTopLevelSymbols (t : ContextSymbolTable) (localOnly : bool)
  : list ISymbolInfo :=
  tokenVocabEntry t
  ++ symbolsOfType t (OfClass ImportSymbol) localOnly
  ++ symbolsOfType t (OfClass BuiltInTokenSymbol) localOnly
  ++ symbolsOfType t (OfClass VirtualTokenSymbol) localOnly
  ++ symbolsOfType t (OfClass FragmentTokenSymbol) localOnly
  ++ symbolsOfType t (OfClass TokenSymbol) localOnly
  ++ symbolsOfType t (OfClass BuiltInModeSymbol) localOnly
  ++ symbolsOfType t (OfClass LexerModeSymbol) localOnly
  ++ symbolsOfType t (OfClass BuiltInChannelSymbol) localOnly
  ++ symbolsOfType t (OfClass TokenChannelSymbol) localOnly
  ++ symbolsOfType t (OfClass RuleSymbol) localOnly.

(** *** Action and predicate caches *)

Definition actionListOfType (t : ContextSymbolTable) (type : CodeActionType.t)
  : list BaseSymbol :=
  match type with
  | CodeActionType.LocalNamed =>
    filter (instanceOf (OfClass LocalNamedActionSymbol)) (namedActions t)
  | CodeActionType.ParserAction => parserActions t
  | CodeActionType.LexerAction => lexerActions t
  | CodeActionType.ParserPredicate => parserPredicates t
  | CodeActionType.LexerPredicate => lexerPredicates t
  | CodeActionType.GlobalNamed =>
    filter (instanceOf (OfClass GlobalNamedActionSymbol)) (namedActions t)
  end.

(** [definition.range.end.column = definition.range.start.column + 3] *)
Definition widenEnd (d : IDefinition) : IDefinition :=
  {| def_text := def_text d;
     def_range :=
       {| range_start := range_start (def_range d);
          range_end := {| column := column (range_start (def_range d)) + 3;
                          row := row (range_end (def_range d)) |} |} |}.

(** The body of the loop of [listActions] for one entry: the record it
    pushes, or the [TypeError] of [entry.context!.getText()] on an entry
    without a context. *)
Definition actionRecord (t : ContextSymbolTable) (entry : BaseSymbol)
  : Completion ISymbolInfo :=
  let definition := definitionForContext (sym_context entry) true in
  let definition :=
    match definition with
    | Some d =>
      if String.eqb (toLowerCase (sym_name entry)) "skip"
      then Some (widenEnd d)
      else Some d
    | None => None
    end in
  match sym_context entry with
  | Some ctx =>
    Normal {| info_kind := getKindFromSymbol entry;
              info_name := sym_name entry;
              info_source := match owner t with
                             | Some o => fileName o
                             | None => ""
                             end;
              info_definition := definition;
              info_description := Some (getText ctx) |}
  | None => TypeError
  end.

(** The [for] loop inside the [try]: [result] as it stands when the loop
    ends or throws. *)
Fixpoint actionLoop (t : ContextSymbolTable) (entries : list BaseSymbol)
         (result : list ISymbolInfo) : list ISymbolInfo * Completion unit :=
  match entries with
  | [] => (result, Normal tt)
  | entry :: rest =>
    match actionRecord t entry with
    | Normal r => actionLoop t rest (result ++ [r])
    | TypeError => (result, TypeError)
    end
  end.

Definition errorRecord : ISymbolInfo :=
  {| info_kind := SymbolKind.Unknown;
     info_name := "Error getting actions list";
     info_source := "";
     info_definition := None;
     info_description :=
       Some "Internal error occurred while collecting the list of defined actions" |}.

Definition listActions (t : ContextSymbolTable) (type : CodeActionType.t)
  : list ISymbolInfo :=
  match actionLoop t (actionListOfType t type) [] with
  | (result, Normal _) => result
  | (result, TypeError) => result ++ [errorRecord]
  end.

Definition setNamedActions (t : ContextSymbolTable) (l : list BaseSymbol) :=
  match t with
  | SymbolTable n o tr cs deps refs _ pa la pp lp =>
    SymbolTable n o tr cs deps refs l pa la pp lp
  end.
Definition setParserActions (t : ContextSymbolTable) (l : list BaseSymbol) :=
  match t with
  | SymbolTable n o tr cs deps refs na _ la pp lp =>
    SymbolTable n o tr cs deps refs na l la pp lp
  end.
Definition setLexerActions (t : ContextSymbolTable) (l : list BaseSymbol) :=
  match t with
  | SymbolTable n o tr cs deps refs na pa _ pp lp =>
    SymbolTable n o tr cs deps refs na pa l pp lp
  end.
Definition setParserPredicates (t : ContextSymbolTable) (l : list BaseSymbol) :=
  match t with
  | SymbolTable n o tr cs deps refs na pa la _ lp =>
    SymbolTable n o tr cs deps refs na pa la l lp
  end.
Definition setLexerPredicates (t : ContextSymbolTable) (l : list BaseSymbol) :=
  match t with
  | SymbolTable n o tr cs deps refs na pa la pp _ =>
    SymbolTable n o tr cs deps refs na pa la pp l
  end.
Definition setSymbolReferences (t : ContextSymbolTable) (m : list (string * nat)) :=
  match t with
  | SymbolTable n o tr cs deps _ na pa la pp lp =>
    SymbolTable n o tr cs deps m na pa la pp lp
  end.

Definition defineNamedAction (t : ContextSymbolTable) (action : BaseSymbol) :=
  setNamedActions t (namedActions t ++ [action]).

Definition defineParserAction (t : ContextSymbolTable) (action : BaseSymbol) :=
  setParserActions t (parserActions t ++ [action]).

Definition defineLexerAction (t : ContextSymbolTable) (action : BaseSymbol) :=
  setLexerActions t (lexerActions t ++ [action]).

Definition definePredicate (t : ContextSymbolTable) (predicate : BaseSymbol) :=
  if instanceOf (OfClass LexerPredicateSymbol) predicate
  then setLexerPredicates t (lexerPredicates t ++ [predicate])
  else setParserPredicates t (parserPredicates t ++ [predicate]).

(** *** Reference counts *)

Definition getReferenceCount (t : ContextSymbolTable) (symbolName : string) : nat :=
  match mapGet symbolName (symbolReferences t) with
  | Some (S n) => S n
  | _ => 0
  end.

Definition incrementSymbolRefCount (t : ContextSymbolTable) (symbolName : string) :=
  match mapGet symbolName (symbolReferences t) with
  | Some (S n) => setSymbolReferences t (mapSet symbolName (S n + 1) (symbolReferences t))
  | _ => setSymbolReferences t (mapSet symbolName 1 (symbolReferences t))
  end.

(** *** getSymbolOccurrences *)

(** The body of the loop for one symbol: the records it pushes. *)
Definition occurrencesOf (symbolName : string) (symbol : SymbolRef)
  : Completion (list ISymbolInfo) :=
  let s := ref_symbol symbol in
  match tableOwner symbol with
  | None => Normal []
  | Some o =>
    let record (k : BaseSymbol) (ctx : option ParseTree) :=
      {| info_kind := getKindFromSymbol k;
         info_name := symbolName;
         info_source := fileName o;
         info_definition := definitionForContext ctx true;
         info_description := None |} in
    let nested :=
      match sym_scope s with
      | Some ks => map (fun reference => record reference (sym_context reference))
                       (getAllNestedSymbolsSync symbolName ks)
      | None => []
      end in
    match sym_context s with
    | Some ctx =>
      if String.eqb (sym_name s) symbolName then
        let context :=
          if instanceOf (OfClass FragmentTokenSymbol) s then childAt ctx 1
          else if instanceOf (OfClass TokenSymbol) s || instanceOf (OfClass RuleSymbol) s
               then childAt ctx 0
               else Normal (Some ctx) in
        match context with
        | Normal context => Normal (record s context :: nested)
        | TypeError => TypeError
        end
      else Normal nested
    | None => Normal nested
    end
  end.

Fixpoint occurrencesLoop (symbolName : string) (symbols : list SymbolRef)
         (result : list ISymbolInfo) : Completion (list ISymbolInfo) :=
  match symbols with
  | [] => Normal result
  | symbol :: rest =>
    match occurrencesOf symbolName symbol with
    | Normal l => occurrencesLoop symbolName rest (result ++ l)
    | TypeError => TypeError
    end
  end.

Definition getSymbolOccurrences (t : ContextSymbolTable) (symbolName : string)
           (localOnly : bool) : Completion (list ISymbolInfo) :=
  occurrencesLoop symbolName (getAllSymbolsSync t AnySymbol localOnly) [].

(** *** symbolContainingContext *)

(** One turn of the loop of [findRecursive] on [symbol]: the symbol the
    function returns from this turn, or [None] when the loop goes on to
    the next child. *)
Fixpoint findAt (context : Interval) (symbol : BaseSymbol) : option BaseSymbol :=
  match symbol with
  | Symbol _ _ _ ctx ks =>
    match ctx with
    | None => None
    | Some c =>
      if properlyContains (getSourceInterval c) context then
        let child :=
          match ks with
          | Some l =>
            (fix findRecursive (l : list BaseSymbol) : option BaseSymbol :=
               match l with
               | [] => None
               | k :: rest =>
                 match findAt context k with
                 | Some found => Some found
                 | None => findRecursive rest
                 end
               end) l
          | None => None
          end in
        match child with
        | Some found => Some found
        | None => Some symbol
        end
      else None
    end
  end.

Fixpoint findRecursive (context : Interval) (l : list BaseSymbol) : option BaseSymbol :=
  match l with
  | [] => None
  | k :: rest =>
    match findAt context k with
    | Some found => Some found
    | None => findRecursive context rest
    end
  end.

Definition symbolContainingContext (t : ContextSymbolTable) (context : ParseTree)
  : option BaseSymbol :=
  findRecursive (getSourceInterval context) (children t).

End Methods.
End Table.
Import Table.

(** ** Auxiliary definitions for the statements *)

(** The loop of [SymbolTable.resolveSync] over the dependencies. *)
Fixpoint firstResolved (ds : list ContextSymbolTable) (name : string) : option SymbolRef :=
  match ds with
  | [] => None
  | d :: rest =>
    match resolveSync d name false with
    | Some r => Some r
    | None => firstResolved rest name
    end
  end.

(** The children of a scoped symbol; a plain symbol has none. *)
Definition scopeOf (s : BaseSymbol) : list BaseSymbol :=
  match sym_scope s with
  | Some ks => ks
  | None => []
  end.

(** The ten kinds [getSymbolOfType] answers with a bare name lookup. *)
Definition resolvedByName (kind : SymbolKind.t) : bool :=
  match kind with
  | SymbolKind.Import | SymbolKind.BuiltInLexerToken | SymbolKind.VirtualLexerToken
  | SymbolKind.FragmentLexerToken | SymbolKind.LexerRule | SymbolKind.BuiltInMode
  | SymbolKind.LexerMode | SymbolKind.BuiltInChannel | SymbolKind.TokenChannel
  | SymbolKind.ParserRule => true
  | _ => false
  end.

(** The record [getSymbolInfo] builds once [symbol] and [kind] are settled. *)
Definition described (definitionForContext : option ParseTree -> bool -> option IDefinition)
           (kind : SymbolKind.t) (name : string) (symbol : SymbolRef) : ISymbolInfo :=
  {| info_kind := kind;
     info_name := name;
     info_source :=
       match sym_context (ref_symbol symbol), tableOwner symbol with
       | Some _, Some o => fileName o
       | _, _ => "ANTLR runtime"
       end;
     info_definition := definitionForContext (sym_context (ref_symbol symbol)) true;
     info_description := None |}.

(** *** Containment of a node in the anchors of symbols *)

(** The test of [findRecursive] on one symbol: it has an anchor, and the
    anchor's interval contains the interval looked for. *)
Definition covers (properlyContains : Interval -> Interval -> bool)
           (context : Interval) (s : BaseSymbol) : bool :=
  match sym_context s with
  | Some c => properlyContains (getSourceInterval c) context
  | None => false
  end.

(** [Enclosing pc context l s n]: [s] lies [n] levels below the scope whose
    children are [l], and [s] and all the scopes between contain [context]. *)
Inductive Enclosing (pc : Interval -> Interval -> bool) (context : Interval)
  : list BaseSymbol -> BaseSymbol -> nat -> Prop :=
| Enclosing_child (l : list BaseSymbol) (s : BaseSymbol) :
    In s l -> covers pc context s = true -> Enclosing pc context l s 1
| Enclosing_nested (l : list BaseSymbol) (a s : BaseSymbol) (n : nat) :
    In a l -> covers pc context a = true ->
    Enclosing pc context (scopeOf a) s n ->
    Enclosing pc context l s (S n).

(** Scopes laid out as a tree of spans: among the children of a scope at
    most one contains [context], and the same holds inside that child. *)
Inductive Separated (pc : Interval -> Interval -> bool) (context : Interval)
  : list BaseSymbol -> Prop :=
| Separated_nil : Separated pc context []
| Separated_apart (s : BaseSymbol) (l : list BaseSymbol) :
    covers pc context s = false ->
    Separated pc context l ->
    Separated pc context (s :: l)
| Separated_around (s : BaseSymbol) (l : list BaseSymbol) :
    covers pc context s = true ->
    Forall (fun k => covers pc context k = false) l ->
    Separated pc context (scopeOf s) ->
    Separated pc context (s :: l).

(** *** Sequences of updates of the caches *)

(** The calls that fill the caches and the reference counter while the
    grammar is walked. *)
Inductive TableUpdate : Set :=
| DefineNamedAction (action : BaseSymbol)
| DefineParserAction (action : BaseSymbol)
| DefineLexerAction (action : BaseSymbol)
| DefinePredicate (predicate : BaseSymbol)
| IncrementSymbolRefCount (symbolName : string).

Definition applyUpdate (t : ContextSymbolTable) (u : TableUpdate) : ContextSymbolTable :=
  match u with
  | DefineNamedAction a => defineNamedAction t a
  | DefineParserAction a => defineParserAction t a
  | DefineLexerAction a => defineLexerAction t a
  | DefinePredicate p => definePredicate t p
  | IncrementSymbolRefCount n => incrementSymbolRefCount t n
  end.

Definition applyUpdates (t : ContextSymbolTable) (us : list TableUpdate)
  : ContextSymbolTable :=
  fold_left applyUpdate us t.

(** The predicates a sequence of updates defines, in the order of the calls. *)
Definition definedPredicates (us : list TableUpdate) : list BaseSymbol :=
  flat_map (fun u => match u with DefinePredicate p => [p] | _ => [] end) us.

Definition isLexerPredicate (s : BaseSymbol) : bool :=
  instanceOf (OfClass LexerPredicateSymbol) s.

(** The two predicate categories, told apart by [lexer]: the cache
    [definePredicate] appends to, the type that selects it in
    [actionListOfType], and the predicates that go there. *)
Definition predicateCache (lexer : bool) (t : ContextSymbolTable) : list BaseSymbol :=
  if lexer then lexerPredicates t else parserPredicates t.

Definition predicateType (lexer : bool) : CodeActionType.t :=
  if lexer then CodeActionType.LexerPredicate else CodeActionType.ParserPredicate.

Definition inCategory (lexer : bool) (p : BaseSymbol) : bool :=
  Bool.eqb (isLexerPredicate p) lexer.

(** *** The outline of a table *)

(** The classes [listTopLevelSymbols] collects, in the order of its calls. *)
Definition topLevelOrder : list SymbolClass :=
  [ImportSymbol; BuiltInTokenSymbol; VirtualTokenSymbol; FragmentTokenSymbol;
   TokenSymbol; BuiltInModeSymbol; LexerModeSymbol; BuiltInChannelSymbol;
   TokenChannelSymbol; RuleSymbol].

Fixpoint indexOf (c : SymbolClass) (l : list SymbolClass) : nat :=
  match l with
  | [] => 0
  | x :: rest => if classEqb x c then 0 else S (indexOf c rest)
  end.

(** The position of a symbol's class in [topLevelOrder]. *)
Definition categoryRank (s : BaseSymbol) : nat := indexOf (sym_class s) topLevelOrder.

(** Every object once, at its first position: objects are told apart by
    their identity. *)
Fixpoint uniqueSymbols (seen : list nat) (l : list BaseSymbol) : list BaseSymbol :=
  match l with
  | [] => []
  | s :: rest =>
    if existsb (Nat.eqb (sym_ident s)) seen
    then uniqueSymbols seen rest
    else s :: uniqueSymbols (sym_ident s :: seen) rest
  end.

(** The children of the table, category after category. *)
Definition topLevelSymbols (t : ContextSymbolTable) : list BaseSymbol :=
  flat_map (fun c => uniqueSymbols [] (filter (instanceOf (OfClass c)) (children t)))
           topLevelOrder.

(** The record [symbolsOfType] builds for a child of a table owned by [o]. *)
Definition symbolRecord (getKindFromSymbol : BaseSymbol -> SymbolKind.t)
           (definitionForContext : option ParseTree -> bool -> option IDefinition)
           (o : option ISourceContext) (s : BaseSymbol) : ISymbolInfo :=
  {| info_kind := getKindFromSymbol s;
     info_name := sym_name s;
     info_source := match o with
                    | Some c => fileName c
                    | None => "ANTLR runtime"
                    end;
     info_definition := definitionForContext (sym_context s) true;
     info_description := None |}.

(** *** Tables reached through dependencies *)

Inductive Reaches : ContextSymbolTable -> ContextSymbolTable -> Prop :=
| Reaches_self (t : ContextSymbolTable) : Reaches t t
| Reaches_dependency (t d tb : ContextSymbolTable) :
    In d (dependencies t) -> Reaches d tb -> Reaches t tb.

(** ** Instances of the helpers and example tables, for evaluation *)

(** Modelled from the spec: helpers.ts is not among the sources.  The
    properties below are stated for every function in the place of
    [getKindFromSymbol]; this instance, which serves the examples, reads
    the kind off the symbol's class, the token-vocabulary option being
    recognised by its name; class [OtherSymbol 0] plays the terminal
    symbol. *)
Definition kindOfClass (s : BaseSymbol) : SymbolKind.t :=
  if String.eqb (sym_name s) "tokenVocab" then SymbolKind.TokenVocab
  else match sym_class s with
       | ImportSymbol => SymbolKind.Import
       | BuiltInTokenSymbol => SymbolKind.BuiltInLexerToken
       | VirtualTokenSymbol => SymbolKind.VirtualLexerToken
       | FragmentTokenSymbol => SymbolKind.FragmentLexerToken
       | TokenSymbol => SymbolKind.LexerRule
       | BuiltInModeSymbol => SymbolKind.BuiltInMode
       | LexerModeSymbol => SymbolKind.LexerMode
       | BuiltInChannelSymbol => SymbolKind.BuiltInChannel
       | TokenChannelSymbol => SymbolKind.TokenChannel
       | RuleSymbol => SymbolKind.ParserRule
       | OtherSymbol 0 => SymbolKind.Terminal
       | _ => SymbolKind.Unknown
       end.

(** Modelled from the spec: helpers.ts is not among the sources.  The
    properties below are stated for every function in the place of
    [definitionForContext]; this instance, which serves the examples, gives
    no span for a missing node, else the node's text on one row, the
    columns taken from its interval. *)
Definition spanOfInterval (ctx : option ParseTree) (keepQuotes : bool) : option IDefinition :=
  match ctx with
  | None => None
  | Some c =>
    Some {| def_text := getText c;
            def_range :=
              {| range_start := {| column := start (getSourceInterval c); row := 1 |};
                 range_end := {| column := stop (getSourceInterval c); row := 1 |} |} |}
  end.

(** An instance of [Interval.properlyContains]: the bounds of the other
    interval lie within this one. *)
Definition boundsWithin (this other : Interval) : bool :=
  (start this <=? start other)%Z && (stop other <=? stop this)%Z.

(** A second instance, which also asks the two intervals to differ. *)
Definition strictlyWithin (this other : Interval) : bool :=
  boundsWithin this other
  && negb ((start this =? start other)%Z && (stop this =? stop other)%Z).

(** An instance of [toLowerCase] on ASCII letters. *)
Definition lowerAscii (c : ascii) : ascii :=
  let n := nat_of_ascii c in
  if ((65 <=? n)%nat && (n <=? 90)%nat)%bool then ascii_of_nat (n + 32) else c.

Fixpoint lowerCaseAscii (s : string) : string :=
  match s with
  | EmptyString => EmptyString
  | String c rest => String (lowerAscii c) (lowerCaseAscii rest)
  end.

Definition node (a b : Z) (text : string) : ParseTree :=
  ParserRuleContext {| start := a; stop := b |} text [].

Definition fileT1 : ISourceContext := {| sourceId := "T1"; fileName := "T1.g4" |}.
Definition fileT2 : ISourceContext := {| sourceId := "T2"; fileName := "T2.g4" |}.
Definition fileT3 : ISourceContext := {| sourceId := "T3"; fileName := "T3.g4" |}.

(** A grammar whose only symbol named INT is a parser rule. *)
Definition ruleINT : BaseSymbol :=
  Symbol 1 RuleSymbol "INT" (Some (node 0 5 "INT : expr ;")) (Some []).

Definition tableRuleINT : ContextSymbolTable :=
  SymbolTable "T1" (Some fileT1) None [ruleINT] [] [] [] [] [] [] [].

(** T2 and T3 both declare the token PLUS; T1 imports both, T2 first. *)
Definition tokenPLUS2 : BaseSymbol :=
  Symbol 20 TokenSymbol "PLUS" (Some (node 0 3 "PLUS : '+' ;")) (Some []).
Definition tokenPLUS3 : BaseSymbol :=
  Symbol 30 TokenSymbol "PLUS" (Some (node 4 9 "PLUS : 'plus' ;")) (Some []).

Definition tableT2 : ContextSymbolTable :=
  SymbolTable "T2" (Some fileT2) None [tokenPLUS2] [] [] [] [] [] [] [].
Definition tableT3 : ContextSymbolTable :=
  SymbolTable "T3" (Some fileT3) None [tokenPLUS3] [] [] [] [] [] [] [].

Definition importT2 : BaseSymbol :=
  Symbol 10 ImportSymbol "T2" (Some (node 1 1 "T2")) None.
Definition terminalPLUS : BaseSymbol :=
  Symbol 12 (OtherSymbol 0) "PLUS" (Some (node 7 7 "PLUS")) None.
Definition ruleExpr : BaseSymbol :=
  Symbol 11 RuleSymbol "expr" (Some (node 3 9 "expr : expr PLUS expr ;"))
         (Some [terminalPLUS]).

Definition tableT1 : ContextSymbolTable :=
  SymbolTable "T1" (Some fileT1) None [importT2; ruleExpr] [tableT2; tableT3]
              [] [] [] [] [] [].

(** T1 with T2 as its only dependency. *)
Definition tableT1single : ContextSymbolTable :=
  SymbolTable "T1" (Some fileT1) None [importT2; ruleExpr] [tableT2]
              [] [] [] [] [] [].

Definition refIn (t : ContextSymbolTable) (s : BaseSymbol) : SymbolRef :=
  {| ref_symbol := s; ref_table := Some t |}.

(** Two parser actions, the second without a syntax anchor. *)
Definition actionOne : BaseSymbol :=
  Symbol 40 (OtherSymbol 1) "action" (Some (node 2 4 "{ a(); }")) None.
Definition actionNoAnchor : BaseSymbol :=
  Symbol 41 (OtherSymbol 1) "action" None None.

Definition tableActions : ContextSymbolTable :=
  SymbolTable "T1" (Some fileT1) None [] [] [] [] [actionOne; actionNoAnchor] [] [] [].

(** A lexer action named skip whose anchor spans the columns 4 to 5, and a
    lexer action of another name on the same anchor. *)
Definition actionSkip : BaseSymbol :=
  Symbol 42 (OtherSymbol 2) "Skip" (Some (node 4 5 "skip")) None.
Definition actionMore : BaseSymbol :=
  Symbol 43 (OtherSymbol 2) "more" (Some (node 4 5 "more")) None.

Definition tableSkip : ContextSymbolTable :=
  SymbolTable "T1" (Some fileT1) None [] [] [] [] [] [actionSkip; actionMore] [] [].

(** Rule [expr] holds the alternative [expr PLUS expr], which holds three
    references; the options block comes first in the table. *)
Definition refLeft : BaseSymbol :=
  Symbol 50 (OtherSymbol 3) "expr" (Some (node 5 5 "expr")) None.
Definition refPlus : BaseSymbol :=
  Symbol 51 (OtherSymbol 0) "PLUS" (Some (node 6 6 "PLUS")) None.
Definition refRight : BaseSymbol :=
  Symbol 52 (OtherSymbol 3) "expr" (Some (node 7 7 "expr")) None.
Definition alternativeB : BaseSymbol :=
  Symbol 53 (OtherSymbol 4) "alt" (Some (node 5 7 "expr PLUS expr"))
         (Some [refLeft; refRight]).
Definition ruleA : BaseSymbol :=
  Symbol 54 RuleSymbol "expr" (Some (node 3 9 "expr : expr PLUS expr | INT ;"))
         (Some [alternativeB]).
Definition optionsBlock : BaseSymbol :=
  Symbol 55 (OtherSymbol 5) "options" (Some (node 0 2 "options { }")) (Some []).

Definition tableNested : ContextSymbolTable :=
  SymbolTable "T1" (Some fileT1) None [optionsBlock; ruleA] [] [] [] [] [] [] [].

(** Predicates of a lexer grammar and of a parser grammar. *)
Definition lexerPredicateA : BaseSymbol :=
  Symbol 60 LexerPredicateSymbol "{ a }?" (Some (node 1 2 "{ a }?")) None.
Definition lexerPredicateB : BaseSymbol :=
  Symbol 61 LexerPredicateSymbol "{ b }?" (Some (node 3 4 "{ b }?")) None.
Definition parserPredicateC : BaseSymbol :=
  Symbol 62 (OtherSymbol 6) "{ c }?" (Some (node 5 6 "{ c }?")) None.

(** A grammar that declares its rule first, then a token, a mode, the
    options and an import; the import object is listed twice. *)
Definition tokenVocabOption : BaseSymbol :=
  Symbol 70 (OtherSymbol 7) "tokenVocab" (Some (node 1 1 "tokenVocab = T2")) None.
Definition optionsWithVocab : BaseSymbol :=
  Symbol 71 (OtherSymbol 5) "options" (Some (node 0 2 "options { tokenVocab = T2; }"))
         (Some [tokenVocabOption]).
Definition modeIsland : BaseSymbol :=
  Symbol 72 LexerModeSymbol "Island" (Some (node 30 31 "mode Island;")) None.

Definition tableOutline : ContextSymbolTable :=
  SymbolTable "T1" (Some fileT1) None
              [ruleExpr; tokenPLUS2; modeIsland; importT2; optionsWithVocab; importT2]
              [tableT2] [] [] [] [] [] [].

(** A table without an owner that depends on T2. *)
Definition tableNoOwner : ContextSymbolTable :=
  SymbolTable "scratch" None None [ruleExpr; tokenPLUS3] [tableT2] [] [] [] [] [] [].

(** A lexer mode whose anchor spans the rules of the mode, listed before
    the one rule of the mode; the rule holds an alternative. *)
Definition alternativeLetters : BaseSymbol :=
  Symbol 80 (OtherSymbol 4) "alt" (Some (node 36 39 "LETTER ( LETTER )*")) (Some []).
Definition tokenID : BaseSymbol :=
  Symbol 81 TokenSymbol "ID" (Some (node 34 40 "ID : LETTER ( LETTER )* ;"))
         (Some [alternativeLetters]).
Definition modeSpan : BaseSymbol :=
  Symbol 82 LexerModeSymbol "Island"
         (Some (node 30 40 "mode Island; ID : LETTER ( LETTER )* ;")) None.

Definition tableOverlap : ContextSymbolTable :=
  SymbolTable "T1" (Some fileT1) None [modeSpan; tokenID] [] [] [] [] [] [] [].

(** ** The remaining queries of the table *)

Definition actionTypeEqb (a b : CodeActionType.t) : bool :=
  match a, b with
  | CodeActionType.GlobalNamed, CodeActionType.GlobalNamed
  | CodeActionType.LocalNamed, CodeActionType.LocalNamed
  | CodeActionType.ParserAction, CodeActionType.ParserAction
  | CodeActionType.LexerAction, CodeActionType.LexerAction
  | CodeActionType.ParserPredicate, CodeActionType.ParserPredicate
  | CodeActionType.LexerPredicate, CodeActionType.LexerPredicate => true
  | _, _ => false
  end.

(** [getActionCounts]: the [Map] it fills, as the entries in the order of
    the calls of [set]. *)
Definition getActionCounts (t : ContextSymbolTable) : list (CodeActionType.t * nat) :=
  [ (CodeActionType.LocalNamed,
     List.length (filter (instanceOf (OfClass LocalNamedActionSymbol)) (namedActions t)));
    (CodeActionType.GlobalNamed,
     List.length (filter (instanceOf (OfClass GlobalNamedActionSymbol)) (namedActions t)));
    (CodeActionType.ParserAction, List.length (parserActions t));
    (CodeActionType.LexerAction, List.length (lexerActions t));
    (CodeActionType.ParserPredicate, List.length (parserPredicates t));
    (CodeActionType.LexerPredicate, List.length (lexerPredicates t)) ].

(** [Map.get] on the result of [getActionCounts]. *)
Fixpoint countFor (type : CodeActionType.t) (m : list (CodeActionType.t * nat))
  : option nat :=
  match m with
  | [] => None
  | (k, v) :: rest => if actionTypeEqb k type then Some v else countFor type rest
  end.

(** [getUnreferencedSymbols]: the keys of the counter whose value is 0, in
    the order of the [Map]. *)
Definition getUnreferencedSymbols (t : ContextSymbolTable) : list string :=
  map fst (filter (fun entry => Nat.eqb (snd entry) 0) (symbolReferences t)).

(** The number of calls of [incrementSymbolRefCount(name)] in a sequence of
    updates. *)
Definition incrementsOf (name : string) (us : list TableUpdate) : nat :=
  List.length (filter (fun u => match u with
                                | IncrementSymbolRefCount n => String.eqb n name
                                | _ => false
                                end) us).

(** The symbols a sequence of updates hands to each of the define methods. *)
Definition definedNamedActions (us : list TableUpdate) : list BaseSymbol :=
  flat_map (fun u => match u with DefineNamedAction a => [a] | _ => [] end) us.
Definition definedParserActions (us : list TableUpdate) : list BaseSymbol :=
  flat_map (fun u => match u with DefineParserAction a => [a] | _ => [] end) us.
Definition definedLexerActions (us : list TableUpdate) : list BaseSymbol :=
  flat_map (fun u => match u with DefineLexerAction a => [a] | _ => [] end) us.

(** The four caches and the counter are empty, as in a new table and after
    [clear]. *)
Definition freshCaches (t : ContextSymbolTable) : Prop :=
  symbolReferences t = [] /\ namedActions t = [] /\ parserActions t = []
  /\ lexerActions t = [] /\ parserPredicates t = [] /\ lexerPredicates t = [].

(** The symbols for which the loop of [getSymbolOccurrences] indexes the
    children of the anchor: those of a table with an owner that have an
    anchor, the name asked for, and the class of a fragment, a token or a
    rule. *)
Definition indexesAnchor (symbolName : string) (r : SymbolRef) : bool :=
  isDefined (tableOwner r)
  && isDefined (sym_context (ref_symbol r))
  && String.eqb (sym_name (ref_symbol r)) symbolName
  && (instanceOf (OfClass FragmentTokenSymbol) (ref_symbol r)
      || instanceOf (OfClass TokenSymbol) (ref_symbol r)
      || instanceOf (OfClass RuleSymbol) (ref_symbol r)).

Definition isTerminalNode (ctx : option ParseTree) : bool :=
  match ctx with
  | Some (TerminalNode _ _) => true
  | _ => false
  end.

(** A rule whose anchor is the terminal node of its name. *)
Definition ruleOnTerminal : BaseSymbol :=
  Symbol 90 RuleSymbol "expr" (Some (TerminalNode {| start := 3; stop := 3 |} "expr"))
         (Some []).

Definition tableTerminalAnchor : ContextSymbolTable :=
  SymbolTable "T1" (Some fileT1) None [ruleOnTerminal] [] [] [] [] [] [] [].

(** A built-in token: no anchor. *)
Definition builtInEOF : BaseSymbol := Symbol 91 BuiltInTokenSymbol "EOF" None None.

(** ** The lexer adaptor (LexerAdaptor)

    The base class of the grammar lexer: it tells token references from
    rule references when a token is emitted, remembers the kind of the rule
    being defined, and switches modes around arguments and actions. *)

Module LexerAdaptor.

(** The constants of the generated [ANTLRv4Lexer] the adaptor names: token
    types and lexer modes. *)
Record Vocabulary : Set := {
  ID : Z;
  TOKEN_REF : Z;
  RULE_REF : Z;
  SEMI : Z;
  ARGUMENT_CONTENT : Z;
  ACTION_CONTENT : Z;
  LexerCharSet : Z;
  Argument : Z
}.

(** [Token.INVALID_TYPE] and [Lexer.MORE] of the runtime. *)
Definition INVALID_TYPE : Z := 0.
Definition MORE : Z := (-2).

(** The fields of the lexer the adaptor reads and writes. *)
Record Lexer : Set := {
  inputStream : string;
  _tokenStartCharIndex : nat;
  _type : Z;
  mode : Z;
  _modeStack : list Z;
  currentRuleType : Z
}.

Definition setType (lx : Lexer) (t : Z) : Lexer :=
  {| inputStream := inputStream lx;
     _tokenStartCharIndex := _tokenStartCharIndex lx;
     _type := t;
     mode := mode lx;
     _modeStack := _modeStack lx;
     currentRuleType := currentRuleType lx |}.

Definition setCurrentRuleType (lx : Lexer) (t : Z) : Lexer :=
  {| inputStream := inputStream lx;
     _tokenStartCharIndex := _tokenStartCharIndex lx;
     _type := _type lx;
     mode := mode lx;
     _modeStack := _modeStack lx;
     currentRuleType := t |}.

(** [Lexer.pushMode(m)]: the current mode goes on top of the stack, which
    is the end of the array. *)
Definition pushMode (lx : Lexer) (m : Z) : Lexer :=
  {| inputStream := inputStream lx;
     _tokenStartCharIndex := _tokenStartCharIndex lx;
     _type := _type lx;
     mode := m;
     _modeStack := _modeStack lx ++ [mode lx];
     currentRuleType := currentRuleType lx |}.

(** What a method of the lexer yields: the lexer it leaves, or the error
    "Empty Stack" of [popMode]. *)
Inductive Outcome : Set :=
| Done (lx : Lexer)
| EmptyStack.

(** [Lexer.popMode()] *)
Definition popMode (lx : Lexer) : Outcome :=
  match _modeStack lx with
  | [] => EmptyStack
  | m :: rest =>
    Done {| inputStream := inputStream lx;
            _tokenStartCharIndex := _tokenStartCharIndex lx;
            _type := _type lx;
            mode := last (m :: rest) 0%Z;
            _modeStack := removelast (m :: rest);
            currentRuleType := currentRuleType lx |}
  end.

(** [Lexer.more()] *)
Definition more (lx : Lexer) : Lexer := setType lx MORE.

(** [s.charAt(0)]: the first code unit as a string, the empty string on an
    empty string. *)
Definition charAt0 (s : string) : string := String.substring 0 1 s.

Section Adaptor.

Variable v : Vocabulary.
(** [String.prototype.toUpperCase] *)
Variable toUpperCase : string -> string.

(** [emit]: the lexer it leaves and the type of the token [super.emit()]
    creates. *)
Definition emit (lx : Lexer) : Lexer * Z :=
  let lx :=
    if (_type lx =? ID v)%Z then
      let firstChar :=
        String.substring (_tokenStartCharIndex lx) 1 (inputStream lx) in
      let lx :=
        if String.eqb (charAt0 firstChar) (toUpperCase (charAt0 firstChar))
        then setType lx (TOKEN_REF v)
        else setType lx (RULE_REF v) in
      if (currentRuleType lx =? INVALID_TYPE)%Z
      then setCurrentRuleType lx (_type lx)
      else lx
    else if (_type lx =? SEMI v)%Z then setCurrentRuleType lx INVALID_TYPE
    else lx in
  (lx, _type lx).

Definition handleBeginArgument (lx : Lexer) : Lexer :=
  if (currentRuleType lx =? TOKEN_REF v)%Z
  then more (pushMode lx (LexerCharSet v))
  else pushMode lx (Argument v).

Definition handleEndArgument (lx : Lexer) : Outcome :=
  match popMode lx with
  | EmptyStack => EmptyStack
  | Done lx =>
    if (0 <? List.length (_modeStack lx))%nat
    then Done (setType lx (ARGUMENT_CONTENT v))
    else Done lx
  end.

Definition handleEndAction (lx : Lexer) : Outcome :=
  match popMode lx with
  | EmptyStack => EmptyStack
  | Done lx =>
    if (0 <? List.length (_modeStack lx))%nat
    then Done (setType lx (ACTION_CONTENT v))
    else Done lx
  end.

(** One token of the scan: the runtime sets the type the rule matched and
    the index where the token starts, and the rule's action calls [emit]. *)
Definition scanToken (lx : Lexer) (raw : Z * nat) : Lexer :=
  fst (emit {| inputStream := inputStream lx;
               _tokenStartCharIndex := snd raw;
               _type := fst raw;
               mode := mode lx;
               _modeStack := _modeStack lx;
               currentRuleType := currentRuleType lx |}).

Definition scanTokens (lx : Lexer) (raws : list (Z * nat)) : Lexer :=
  fold_left scanToken raws lx.

(** The type [emit] gives an identifier that starts at index [i]. *)
Definition referenceType (input : string) (i : nat) : Z :=
  if String.eqb (charAt0 (String.substring i 1 input))
                (toUpperCase (charAt0 (String.substring i 1 input)))
  then TOKEN_REF v
  else RULE_REF v.

End Adaptor.

End LexerAdaptor.

(** ** The document symbol provider (AntlrSymbolProvider)

    A string is the sequence of its code units, and [length] counts them. *)

Module SymbolProvider.

(** The arguments handed to the constructors of the editor's [Range],
    [Location] and [SymbolInformation]. *)
Record Range : Set := {
  startLine : Z;
  startCharacter : Z;
  endLine : Z;
  endCharacter : Z
}.

Record Location : Set := { uri : string; range : Range }.

Record SymbolInformation : Set := {
  name : string;
  kind : nat;
  containerName : string;
  location : Location
}.

(** ["-".repeat(n)] *)
Fixpoint dashes (n : nat) : string :=
  match n with
  | 0 => EmptyString
  | S m => String "-" (dashes m)
  end.

Section Provider.

(** Symbol.ts: the text and the editor kind of a symbol kind. *)
Variable symbolDescriptionFromEnum : SymbolKind.t -> string.
Variable translateSymbolKind : SymbolKind.t -> nat.

(** The body of the loop for a symbol that has a definition. *)
Definition symbolInformation (symbol : ISymbolInfo) (definition : IDefinition)
  : SymbolInformation :=
  let r := def_range definition in
  let startRow := if (0 <? row (range_start r))%Z then (row (range_start r) - 1)%Z else 0%Z in
  let endRow := if (0 <? row (range_end r))%Z then (row (range_end r) - 1)%Z else 0%Z in
  let range := {| startLine := startRow;
                  startCharacter := column (range_start r);
                  endLine := endRow;
                  endCharacter := column (range_end r) |} in
  let location := {| uri := info_source symbol; range := range |} in
  let description := symbolDescriptionFromEnum (info_kind symbol) in
  let kind := translateSymbolKind (info_kind symbol) in
  let totalTextLength :=
    String.length (info_name symbol) + String.length description + 1 in
  let description :=
    if (if SymbolKind.eq_dec (info_kind symbol) SymbolKind.LexerMode then true else false)
       && (totalTextLength <? 80)%nat
    then
      let markerWidth := 80 - totalTextLength in
      String.append description (String.append " " (dashes markerWidth))
    else description in
  {| name := info_name symbol;
     kind := kind;
     containerName := description;
     location := location |}.

(** [provideDocumentSymbols], on the list the backend returns for the
    document: the list the promise resolves to. *)
Fixpoint provideDocumentSymbols (symbols : list ISymbolInfo) : list SymbolInformation :=
  match symbols with
  | [] => []
  | symbol :: rest =>
    match info_definition symbol with
    | None => provideDocumentSymbols rest
    | Some definition => symbolInformation symbol definition :: provideDocumentSymbols rest
    end
  end.

End Provider.

End SymbolProvider.

(** A vocabulary and a letter-case function for the examples. *)
Definition sampleVocabulary : LexerAdaptor.Vocabulary :=
  {| LexerAdaptor.ID := 60;
     LexerAdaptor.TOKEN_REF := 1;
     LexerAdaptor.RULE_REF := 2;
     LexerAdaptor.SEMI := 32;
     LexerAdaptor.ARGUMENT_CONTENT := 57;
     LexerAdaptor.ACTION_CONTENT := 58;
     LexerAdaptor.LexerCharSet := 3;
     LexerAdaptor.Argument := 1 |}.

Definition upperAscii (c : ascii) : ascii :=
  let n := nat_of_ascii c in
  if ((97 <=? n)%nat && (n <=? 122)%nat)%bool then ascii_of_nat (n - 32) else c.

Fixpoint upperCaseAscii (s : string) : string :=
  match s with
  | EmptyString => EmptyString
  | String c rest => String (upperAscii c) (upperCaseAscii rest)
  end.

(** The lexer at the start of the text [expr : ID ;], and inside a lexer
    rule with one mode saved. *)
Definition lexerAtStart : LexerAdaptor.Lexer :=
  {| LexerAdaptor.inputStream := "expr : ID ;";
     LexerAdaptor._tokenStartCharIndex := 0;
     LexerAdaptor._type := 0;
     LexerAdaptor.mode := 0;
     LexerAdaptor._modeStack := [];
     LexerAdaptor.currentRuleType := LexerAdaptor.INVALID_TYPE |}.

Definition lexerInTokenRule : LexerAdaptor.Lexer :=
  {| LexerAdaptor.inputStream := "ID : [a-z]+ ;";
     LexerAdaptor._tokenStartCharIndex := 5;
     LexerAdaptor._type := 7;
     LexerAdaptor.mode := 0;
     LexerAdaptor._modeStack := [];
     LexerAdaptor.currentRuleType := 1 |}.

(** A description and an editor kind for the examples. *)
Definition sampleDescription (k : SymbolKind.t) : string :=
  match k with
  | SymbolKind.LexerMode => "Lexer Mode"
  | SymbolKind.ParserRule => "Parser Rule"
  | _ => "Symbol"
  end.

Definition sampleEditorKind (k : SymbolKind.t) : nat :=
  match k with
  | SymbolKind.ParserRule => 11
  | _ => 12
  end.

Definition modeRecord : ISymbolInfo :=
  {| info_kind := SymbolKind.LexerMode;
     info_name := "Island";
     info_source := "T1.g4";
     info_definition :=
       Some {| def_text := "mode Island;";
               def_range := {| range_start := {| column := 0; row := 12 |};
                               range_end := {| column := 11; row := 12 |} |} |};
     info_description := None |}.

Definition runtimeRecord : ISymbolInfo :=
  {| info_kind := SymbolKind.BuiltInLexerToken;
     info_name := "EOF";
     info_source := "ANTLR runtime";
     info_definition := None;
     info_description := None |}.

(** *** The path of the search

    [FirstPath pc context l found]: [found] ends the path that, from the
    scope whose children are [l], enters at every level the first child
    whose anchor contains [context], and stops at the first one none of
    whose children contains it. *)
Inductive FirstPath (pc : Interval -> Interval -> bool) (context : Interval)
  : list BaseSymbol -> BaseSymbol -> Prop :=
| FirstPath_stop (before after : list BaseSymbol) (a : BaseSymbol) :
    Forall (fun s => covers pc context s = false) before ->
    covers pc context a = true ->
    Forall (fun k => covers pc context k = false) (scopeOf a) ->
    FirstPath pc context (before ++ a :: after) a
| FirstPath_enter (before after : list BaseSymbol) (a found : BaseSymbol) :
    Forall (fun s => covers pc context s = false) before ->
    covers pc context a = true ->
    FirstPath pc context (scopeOf a) found ->
    FirstPath pc context (before ++ a :: after) found.

(** *** The token-vocabulary option of a table

    The symbol named tokenVocab among the children of the table's first
    child named options; a child named options that is no scope hands the
    lookup back to the table. *)
Definition tokenVocabSymbol (t : ContextSymbolTable) : option BaseSymbol :=
  match findByName "options" (children t) with
  | Some options =>
    match sym_scope options with
    | Some ks => findByName "tokenVocab" ks
    | None => findByName "tokenVocab" (children t)
    end
  | None => None
  end.

(** *** Symbols of tables with an owner *)

Definition ownedRef (r : SymbolRef) : bool := isDefined (tableOwner r).

(** The record [symbolsOfType] and [getSymbolOccurrences] build for a
    symbol handed out with its table. *)
Definition refRecord (getKindFromSymbol : BaseSymbol -> SymbolKind.t)
           (definitionForContext : option ParseTree -> bool -> option IDefinition)
           (r : SymbolRef) : ISymbolInfo :=
  symbolRecord getKindFromSymbol definitionForContext (tableOwner r) (ref_symbol r).

(** A table with an owner whose one dependency has none; that dependency
    declares PLUS and depends on T2. *)
Definition tableOverNoOwner : ContextSymbolTable :=
  SymbolTable "T1" (Some fileT1) None [importT2] [tableNoOwner] [] [] [] [] [] [].

(** * Properties *)

Lemma resolveSync_unfold (t : ContextSymbolTable) (name : string) (localOnly : bool) :
  resolveSync t name localOnly =
  match findByName name (children t) with
  | Some s => Some {| ref_symbol := s; ref_table := Some t |}
  | None => if localOnly then None else firstResolved (dependencies t) name
  end.
Proof.
  destruct t as [n o tr cs deps refs na pa la pp lp]; simpl.
  destruct (findByName name cs); [reflexivity|].
  destruct localOnly; [reflexivity|].
  induction deps as [|d rest IH]; simpl; [reflexivity|].
  destruct (resolveSync d name false); [reflexivity|exact IH].
Qed.

(** ** Kind-directed lookups *)

Lemma getSymbolOfType_by_name (t : ContextSymbolTable) (name : string)
      (kind : SymbolKind.t) (localOnly : bool) :
  resolvedByName kind = true ->
  getSymbolOfType t name kind localOnly = resolveSync t name localOnly.
Proof. destruct kind; simpl; intros H; try discriminate H; reflexivity. Qed.

Lemma symbolExists_by_name (t : ContextSymbolTable) (name : string)
      (kind : SymbolKind.t) (localOnly : bool) :
  resolvedByName kind = true ->
  symbolExists t name kind localOnly = isDefined (resolveSync t name localOnly).
Proof.
  intros H. unfold symbolExists. rewrite (getSymbolOfType_by_name t name kind localOnly H).
  reflexivity.
Qed.

Lemma symbolExistsInGroup_TokenRef_by_name (t : ContextSymbolTable) (name : string)
      (localOnly : bool) :
  symbolExistsInGroup t name SymbolGroupKind.TokenRef localOnly
  = isDefined (resolveSync t name localOnly).
Proof.
  unfold symbolExistsInGroup.
  rewrite !symbolExists_by_name by reflexivity.
  destruct (isDefined (resolveSync t name localOnly)); reflexivity.
Qed.

(** C1. The lookup behind [symbolExists] never looks at the class of the
    symbol it finds.  In a table whose only symbol named INT is a parser
    rule, INT exists as a built-in token, as a lexer rule and as a member of
    the token-reference group, with [localOnly] set; so does the lexer mode
    Island of a grammar that declares no token of that name. *)
Theorem symbolExistsInGroup_TokenRef_on_parser_rule :
  map sym_class (filter (fun s => String.eqb (sym_name s) "INT") (children tableRuleINT))
  = [RuleSymbol]
  /\ symbolExists tableRuleINT "INT" SymbolKind.BuiltInLexerToken true = true
  /\ symbolExists tableRuleINT "INT" SymbolKind.LexerRule true = true
  /\ symbolExistsInGroup tableRuleINT "INT" SymbolGroupKind.TokenRef true = true
  /\ map sym_class
         (filter (fun s => String.eqb (sym_name s) "Island") (children tableOutline))
     = [LexerModeSymbol]
  /\ symbolExistsInGroup tableOutline "Island" SymbolGroupKind.TokenRef true = true.
Proof. repeat split; reflexivity. Qed.

(** ** getSymbolInfo *)

Section SymbolInfo.

Variable getKindFromSymbol : BaseSymbol -> SymbolKind.t.
Variable definitionForContext : option ParseTree -> bool -> option IDefinition.

Local Abbreviation getSymbolInfo := (getSymbolInfo getKindFromSymbol definitionForContext).
Local Abbreviation dependingGrammar := (dependingGrammar getKindFromSymbol).
Local Abbreviation describedBy := (described definitionForContext).

Lemma forEach_keeps_captured {A B S : Type} (f : A -> B) (l : list A) (s : S) :
  forEach (fun captured x => (captured, f x)) l s = s.
Proof. unfold forEach. induction l as [|x l IH]; simpl; [reflexivity|exact IH]. Qed.

Lemma forEach_app {A B S : Type} (cb : S -> A -> S * B) (l1 l2 : list A) (s : S) :
  forEach cb (l1 ++ l2) s = forEach cb l2 (forEach cb l1 s).
Proof. unfold forEach. apply fold_left_app. Qed.

Lemma dependingGrammar_unresolved (name : string) (l : list ContextSymbolTable)
      (s : SymbolRef * SymbolKind.t) :
  Forall (fun d => resolveSync d name false = None) l ->
  forEach (dependingGrammar name) l s = s.
Proof.
  unfold forEach. intros H. revert s.
  induction H as [|d l Hd _ IH]; intros s; simpl; [reflexivity|].
  unfold Table.dependingGrammar at 2. rewrite Hd. simpl. apply IH.
Qed.

Lemma dependingGrammar_last (name : string) (before after : list ContextSymbolTable)
      (d : ContextSymbolTable) (actual : SymbolRef) (s : SymbolRef * SymbolKind.t) :
  resolveSync d name false = Some actual ->
  Forall (fun x => resolveSync x name false = None) after ->
  forEach (dependingGrammar name) (before ++ d :: after) s
  = (actual, getKindFromSymbol (ref_symbol actual)).
Proof.
  intros Hd Hafter.
  rewrite forEach_app.
  change (d :: after) with ([d] ++ after). rewrite forEach_app.
  rewrite (dependingGrammar_unresolved _ _ _ Hafter).
  unfold forEach; simpl. unfold Table.dependingGrammar. rewrite Hd. reflexivity.
Qed.

Lemma getSymbolInfo_given (t : ContextSymbolTable) (symbol : SymbolRef) :
  getSymbolInfo t (inr symbol) =
  let kind := getKindFromSymbol (ref_symbol symbol) in
  let name := sym_name (ref_symbol symbol) in
  match kind with
  | SymbolKind.Terminal =>
    let '(s, k) := forEach (dependingGrammar name) (dependencies t) (symbol, kind) in
    Some (describedBy k name s)
  | _ => Some (describedBy kind name symbol)
  end.
Proof.
  unfold Table.getSymbolInfo. cbv zeta.
  destruct (getKindFromSymbol (ref_symbol symbol)) eqn:K;
    try reflexivity; rewrite forEach_keeps_captured; reflexivity.
Qed.

(** C2. A symbol of kind TokenVocab or Import is described with its own
    provenance: the records the scan over the dependencies builds are
    returned to the loop and lost, so the result is the same for every
    set of dependencies. *)
Theorem getSymbolInfo_import_own_provenance
        (t : ContextSymbolTable) (symbol : SymbolRef) :
  getKindFromSymbol (ref_symbol symbol) = SymbolKind.TokenVocab
  \/ getKindFromSymbol (ref_symbol symbol) = SymbolKind.Import ->
  getSymbolInfo t (inr symbol)
  = Some (describedBy (getKindFromSymbol (ref_symbol symbol))
                    (sym_name (ref_symbol symbol)) symbol).
Proof.
  intros H. rewrite getSymbolInfo_given. cbv zeta.
  destruct H as [H|H]; rewrite H; reflexivity.
Qed.

Lemma getSymbolInfo_terminal_last
      (t : ContextSymbolTable) (symbol actual : SymbolRef)
      (before after : list ContextSymbolTable) (d : ContextSymbolTable) :
  getKindFromSymbol (ref_symbol symbol) = SymbolKind.Terminal ->
  dependencies t = before ++ d :: after ->
  resolveSync d (sym_name (ref_symbol symbol)) false = Some actual ->
  Forall (fun x => resolveSync x (sym_name (ref_symbol symbol)) false = None) after ->
  getSymbolInfo t (inr symbol)
  = Some (describedBy (getKindFromSymbol (ref_symbol actual))
                    (sym_name (ref_symbol symbol)) actual).
Proof.
  intros K Hdeps Hd Hafter.
  rewrite getSymbolInfo_given. cbv zeta. rewrite K, Hdeps.
  rewrite (dependingGrammar_last _ before after d actual _ Hd Hafter). reflexivity.
Qed.

Lemma getSymbolInfo_terminal_unresolved (t : ContextSymbolTable) (symbol : SymbolRef) :
  getKindFromSymbol (ref_symbol symbol) = SymbolKind.Terminal ->
  Forall (fun x => resolveSync x (sym_name (ref_symbol symbol)) false = None)
         (dependencies t) ->
  getSymbolInfo t (inr symbol)
  = Some (describedBy SymbolKind.Terminal (sym_name (ref_symbol symbol)) symbol).
Proof.
  intros K H. rewrite getSymbolInfo_given. cbv zeta. rewrite K.
  rewrite (dependingGrammar_unresolved _ _ _ H). reflexivity.
Qed.

Lemma getSymbolInfo_named (t : ContextSymbolTable) (name : string) :
  getSymbolInfo t (inl name) =
  match resolveSync t name false with
  | Some r => getSymbolInfo t (inr r)
  | None => None
  end.
Proof.
  unfold Table.getSymbolInfo.
  destruct (resolveSync t name false); reflexivity.
Qed.

Lemma findByName_name (name : string) (l : list BaseSymbol) (s : BaseSymbol) :
  findByName name l = Some s -> sym_name s = name.
Proof.
  unfold findByName. intros H. apply find_some in H. destruct H as [_ H].
  apply String.eqb_eq in H. exact H.
Qed.

Lemma firstResolved_skip (name : string) (before rest : list ContextSymbolTable) :
  Forall (fun x => resolveSync x name false = None) before ->
  firstResolved (before ++ rest) name = firstResolved rest name.
Proof.
  induction 1 as [|d l Hd _ IH]; simpl; [reflexivity|]. rewrite Hd. exact IH.
Qed.

Lemma resolveSync_declared (d : ContextSymbolTable) (name : string) (s : BaseSymbol)
      (localOnly : bool) :
  findByName name (children d) = Some s ->
  resolveSync d name localOnly = Some {| ref_symbol := s; ref_table := Some d |}.
Proof. intros H. rewrite resolveSync_unfold, H. reflexivity. Qed.

(** C3. A terminal symbol is described by the symbol of the last
    dependency, in insertion order, that resolves its name: every
    dependency that resolves the name overwrites the substitution of the
    ones before it.  When that dependency declares the name itself, with
    a syntax anchor, and has an owner, the record's source is that
    owner's file name.  A name that the table does not declare at its top
    level and that exactly one dependency resolves is reported with that
    dependency's file name. *)
Theorem getSymbolInfo_terminal_last_dependency :
  (forall (t : ContextSymbolTable) (symbol : SymbolRef)
          (before after : list ContextSymbolTable) (d : ContextSymbolTable)
          (s : BaseSymbol) (c : ParseTree) (o : ISourceContext),
      getKindFromSymbol (ref_symbol symbol) = SymbolKind.Terminal ->
      dependencies t = before ++ d :: after ->
      findByName (sym_name (ref_symbol symbol)) (children d) = Some s ->
      sym_context s = Some c ->
      owner d = Some o ->
      Forall (fun x => resolveSync x (sym_name (ref_symbol symbol)) false = None) after ->
      getSymbolInfo t (inr symbol)
      = Some {| info_kind := getKindFromSymbol s;
                info_name := sym_name (ref_symbol symbol);
                info_source := fileName o;
                info_definition := definitionForContext (Some c) true;
                info_description := None |})
  /\
  (forall (t1 : ContextSymbolTable) (name : string)
          (before after : list ContextSymbolTable) (t2 : ContextSymbolTable)
          (s : BaseSymbol) (c : ParseTree) (o : ISourceContext),
      findByName name (children t1) = None ->
      dependencies t1 = before ++ t2 :: after ->
      Forall (fun x => resolveSync x name false = None) before ->
      Forall (fun x => resolveSync x name false = None) after ->
      findByName name (children t2) = Some s ->
      sym_context s = Some c ->
      owner t2 = Some o ->
      getSymbolInfo t1 (inl name)
      = Some {| info_kind := getKindFromSymbol s;
                info_name := name;
                info_source := fileName o;
                info_definition := definitionForContext (Some c) true;
                info_description := None |}).
Proof.
  split.
  - intros t symbol before after d s c o K Hdeps Hs Hc Ho Hafter.
    rewrite (getSymbolInfo_terminal_last t symbol _ before after d K Hdeps
               (resolveSync_declared d _ s false Hs) Hafter).
    unfold described, tableOwner; simpl. rewrite Hc, Ho. reflexivity.
  - intros t1 name before after t2 s c o Hlocal Hdeps Hbefore Hafter Hs Hc Ho.
    pose proof (findByName_name _ _ _ Hs) as Hname.
    assert (Hres : resolveSync t1 name false
                   = Some {| ref_symbol := s; ref_table := Some t2 |}).
    { rewrite resolveSync_unfold, Hlocal, Hdeps.
      rewrite (firstResolved_skip name before _ Hbefore). simpl.
      rewrite (resolveSync_declared t2 name s false Hs). reflexivity. }
    rewrite getSymbolInfo_named, Hres.
    destruct (SymbolKind.eq_dec (getKindFromSymbol s) SymbolKind.Terminal) as [K|K].
    + rewrite (getSymbolInfo_terminal_last t1 {| ref_symbol := s; ref_table := Some t2 |}
                 {| ref_symbol := s; ref_table := Some t2 |} before after t2 K Hdeps).
      * unfold described, tableOwner; simpl. rewrite Hc, Ho, Hname. reflexivity.
      * simpl. rewrite Hname. apply resolveSync_declared. exact Hs.
      * simpl. rewrite Hname. exact Hafter.
    + rewrite getSymbolInfo_given. cbv zeta. simpl.
      unfold described, tableOwner; simpl. rewrite Hc, Ho, Hname.
      destruct (getKindFromSymbol s); try reflexivity. contradiction K; reflexivity.
Qed.

End SymbolInfo.

(** The import of T2 in T1: the scan finds T2, whose file identifier
    contains the name, and builds a record for T2.g4; the record returned
    names T1.g4. *)
Lemma getSymbolInfo_import_own_provenance_witness :
  dependentModule spanOfInterval SymbolKind.Import "T2" tableT2
  = Some {| info_kind := SymbolKind.Import;
            info_name := "T2";
            info_source := "T2.g4";
            info_definition := None;
            info_description := None |}
  /\ getSymbolInfo kindOfClass spanOfInterval tableT1single
                   (inr (refIn tableT1single importT2))
     = Some {| info_kind := SymbolKind.Import;
               info_name := "T2";
               info_source := "T1.g4";
               info_definition := spanOfInterval (Some (node 1 1 "T2")) true;
               info_description := None |}.
Proof.
  split; [reflexivity|].
  exact (getSymbolInfo_import_own_provenance kindOfClass spanOfInterval tableT1single
           (refIn tableT1single importT2) (or_intror eq_refl)).
Defined.

(** With T2 and T3 both declaring PLUS and T2 imported first, the terminal
    PLUS of T1 is reported from T3.g4, the last of the two. *)
Lemma getSymbolInfo_terminal_first_dependency_counterexample :
  kindOfClass terminalPLUS = SymbolKind.Terminal
  /\ dependencies tableT1 = [tableT2; tableT3]
  /\ resolveSync tableT2 "PLUS" false = Some (refIn tableT2 tokenPLUS2)
  /\ resolveSync tableT3 "PLUS" false = Some (refIn tableT3 tokenPLUS3)
  /\ option_map (fun r => fileName fileT2 =? info_source r)
                (getSymbolInfo kindOfClass spanOfInterval tableT1
                               (inr (refIn tableT1 terminalPLUS)))
     = Some false
  /\ option_map info_source
                (getSymbolInfo kindOfClass spanOfInterval tableT1
                               (inr (refIn tableT1 terminalPLUS)))
     = Some "T3.g4".
Proof. repeat split; reflexivity. Qed.

Lemma getSymbolInfo_terminal_last_dependency_witness :
  getSymbolInfo kindOfClass spanOfInterval tableT1 (inr (refIn tableT1 terminalPLUS))
  = Some {| info_kind := SymbolKind.LexerRule;
            info_name := "PLUS";
            info_source := "T3.g4";
            info_definition := spanOfInterval (Some (node 4 9 "PLUS : 'plus' ;")) true;
            info_description := None |}
  /\ getSymbolInfo kindOfClass spanOfInterval tableT1single (inl "PLUS")
     = Some {| info_kind := SymbolKind.LexerRule;
               info_name := "PLUS";
               info_source := "T2.g4";
               info_definition := spanOfInterval (Some (node 0 3 "PLUS : '+' ;")) true;
               info_description := None |}.
Proof.
  split.
  - apply (proj1 (getSymbolInfo_terminal_last_dependency kindOfClass spanOfInterval)
             tableT1 (refIn tableT1 terminalPLUS) [tableT2] [] tableT3 tokenPLUS3
             (node 4 9 "PLUS : 'plus' ;") fileT3);
      try reflexivity. constructor.
  - apply (proj2 (getSymbolInfo_terminal_last_dependency kindOfClass spanOfInterval)
             tableT1single "PLUS" [] [] tableT2 tokenPLUS2
             (node 0 3 "PLUS : '+' ;") fileT2);
      try reflexivity; constructor.
Defined.

(** ** listActions *)

Section Actions.

Variable getKindFromSymbol : BaseSymbol -> SymbolKind.t.
Variable definitionForContext : option ParseTree -> bool -> option IDefinition.
Variable toLowerCase : string -> string.

Local Abbreviation actionRecord :=
  (actionRecord getKindFromSymbol definitionForContext toLowerCase).
Local Abbreviation actionLoop :=
  (actionLoop getKindFromSymbol definitionForContext toLowerCase).
Local Abbreviation listActions :=
  (listActions getKindFromSymbol definitionForContext toLowerCase).

Lemma actionLoop_formatted (t : ContextSymbolTable) (pre rest : list BaseSymbol)
      (rs acc : list ISymbolInfo) :
  Forall2 (fun e r => actionRecord t e = Normal r) pre rs ->
  actionLoop t (pre ++ rest) acc = actionLoop t rest (acc ++ rs).
Proof.
  intros H. revert acc.
  induction H as [|e r pre rs He _ IH]; intros acc; simpl.
  - rewrite app_nil_r. reflexivity.
  - rewrite He, IH, <- app_assoc. reflexivity.
Qed.

Lemma actionLoop_extends (t : ContextSymbolTable) (l : list BaseSymbol)
      (acc : list ISymbolInfo) :
  exists tail, fst (actionLoop t l acc) = acc ++ tail.
Proof.
  revert acc. induction l as [|e l IH]; intros acc; simpl.
  - exists []. rewrite app_nil_r. reflexivity.
  - destruct (actionRecord t e) as [r|].
    + destruct (IH (acc ++ [r])) as [tail Ht]. exists (r :: tail).
      rewrite Ht, <- app_assoc. reflexivity.
    + exists []. rewrite app_nil_r. reflexivity.
Qed.

Lemma listActions_extends (t : ContextSymbolTable) (type : CodeActionType.t)
      (pre rest : list BaseSymbol) (rs : list ISymbolInfo) :
  actionListOfType t type = pre ++ rest ->
  Forall2 (fun e r => actionRecord t e = Normal r) pre rs ->
  exists tail, listActions t type = rs ++ tail.
Proof.
  intros Hl Hpre. unfold Table.listActions. rewrite Hl.
  rewrite (actionLoop_formatted t pre rest rs [] Hpre). simpl.
  destruct (actionLoop_extends t rest rs) as [tail Ht].
  destruct (actionLoop t rest rs) as [result [u|]]; simpl in Ht; subst result.
  - exists tail. reflexivity.
  - exists (tail ++ [errorRecord]). rewrite app_assoc. reflexivity.
Qed.

(** C4. [listActions] always returns a list.  When the record of an entry
    cannot be built, the list holds the records of the entries before it,
    in order, followed by one synthetic record of kind Unknown; the
    entries after it are not reported. *)
Theorem listActions_failure_after_prefix
        (t : ContextSymbolTable) (type : CodeActionType.t)
        (pre post : list BaseSymbol) (bad : BaseSymbol) (rs : list ISymbolInfo) :
  actionListOfType t type = pre ++ bad :: post ->
  Forall2 (fun e r => actionRecord t e = Normal r) pre rs ->
  actionRecord t bad = TypeError ->
  listActions t type = rs ++ [errorRecord]
  /\ info_kind errorRecord = SymbolKind.Unknown.
Proof.
  intros Hl Hpre Hbad. split; [|reflexivity].
  unfold Table.listActions. rewrite Hl.
  rewrite (actionLoop_formatted t pre (bad :: post) rs [] Hpre). simpl.
  rewrite Hbad. reflexivity.
Qed.

Lemma listActions_all_formatted
      (t : ContextSymbolTable) (type : CodeActionType.t) (rs : list ISymbolInfo) :
  Forall2 (fun e r => actionRecord t e = Normal r) (actionListOfType t type) rs ->
  listActions t type = rs.
Proof.
  intros H. unfold Table.listActions.
  rewrite <- (app_nil_r (actionListOfType t type)).
  rewrite (actionLoop_formatted t _ [] rs [] H). reflexivity.
Qed.

(** C9. The record [listActions] returns for an entry that has a
    definition: an entry named skip, in any letter case, is reported with
    the end column of its definition set to the start column plus 3, the
    rest of the span untouched; an entry of another name is reported with
    the span [definitionForContext] gave. *)
Theorem listActions_skip_end_column
        (t : ContextSymbolTable) (type : CodeActionType.t)
        (pre post : list BaseSymbol) (entry : BaseSymbol) (rs : list ISymbolInfo)
        (ctx : ParseTree) (d : IDefinition) :
  actionListOfType t type = pre ++ entry :: post ->
  Forall2 (fun e r => actionRecord t e = Normal r) pre rs ->
  sym_context entry = Some ctx ->
  definitionForContext (Some ctx) true = Some d ->
  exists r d',
    nth_error (listActions t type) (List.length pre) = Some r
    /\ info_name r = sym_name entry
    /\ info_definition r = Some d'
    /\ (toLowerCase (sym_name entry) = "skip" ->
        column (range_end (def_range d')) = (column (range_start (def_range d)) + 3)%Z
        /\ row (range_end (def_range d')) = row (range_end (def_range d))
        /\ range_start (def_range d') = range_start (def_range d)
        /\ def_text d' = def_text d)
    /\ (toLowerCase (sym_name entry) <> "skip" -> d' = d).
Proof.
  intros Hl Hpre Hctx Hdef.
  set (d' := if String.eqb (toLowerCase (sym_name entry)) "skip" then widenEnd d else d).
  set (r := {| info_kind := getKindFromSymbol entry;
               info_name := sym_name entry;
               info_source := match owner t with
                              | Some o => fileName o
                              | None => ""
                              end;
               info_definition := Some d';
               info_description := Some (getText ctx) |}).
  assert (Hr : actionRecord t entry = Normal r).
  { unfold Table.actionRecord. rewrite Hctx, Hdef. subst r d'.
    destruct (String.eqb (toLowerCase (sym_name entry)) "skip"); reflexivity. }
  assert (Hpre' : Forall2 (fun e r => actionRecord t e = Normal r)
                          (pre ++ [entry]) (rs ++ [r])).
  { apply Forall2_app; [exact Hpre|]. constructor; [exact Hr|constructor]. }
  assert (Hl' : actionListOfType t type = (pre ++ [entry]) ++ post).
  { rewrite Hl, <- app_assoc. reflexivity. }
  destruct (listActions_extends t type _ _ _ Hl' Hpre') as [tail Ht].
  exists r, d'. split; [|split; [reflexivity|split; [reflexivity|split]]].
  - rewrite Ht, <- app_assoc.
    rewrite (Forall2_length Hpre).
    rewrite nth_error_app2 by apply Nat.le_refl.
    rewrite Nat.sub_diag. reflexivity.
  - intros Hskip. subst d'. rewrite Hskip. simpl. repeat split; reflexivity.
  - intros Hskip. subst d'.
    destruct (String.eqb_spec (toLowerCase (sym_name entry)) "skip") as [E|E];
      [contradiction|reflexivity].
Qed.

End Actions.

(** The second action has no anchor: the list holds the record of the
    first action and the error record, two records. *)
Lemma listActions_single_error_record_counterexample :
  actionRecord kindOfClass spanOfInterval lowerCaseAscii tableActions actionNoAnchor
  = TypeError
  /\ map info_kind
         (listActions kindOfClass spanOfInterval lowerCaseAscii tableActions
                      CodeActionType.ParserAction)
     = [SymbolKind.Unknown; SymbolKind.Unknown]
  /\ map info_name
         (listActions kindOfClass spanOfInterval lowerCaseAscii tableActions
                      CodeActionType.ParserAction)
     = ["action"; "Error getting actions list"]
  /\ List.length (listActions kindOfClass spanOfInterval lowerCaseAscii tableActions
                         CodeActionType.ParserAction) = 2.
Proof. repeat split; reflexivity. Qed.

Lemma listActions_failure_after_prefix_witness :
  listActions kindOfClass spanOfInterval lowerCaseAscii tableActions
              CodeActionType.ParserAction
  = [ {| info_kind := SymbolKind.Unknown;
         info_name := "action";
         info_source := "T1.g4";
         info_definition := spanOfInterval (Some (node 2 4 "{ a(); }")) true;
         info_description := Some "{ a(); }" |} ] ++ [errorRecord]
  /\ info_kind errorRecord = SymbolKind.Unknown.
Proof.
  apply (listActions_failure_after_prefix kindOfClass spanOfInterval lowerCaseAscii
           tableActions CodeActionType.ParserAction [actionOne] [] actionNoAnchor).
  - reflexivity.
  - constructor; [reflexivity|constructor].
  - reflexivity.
Defined.

Lemma listActions_skip_end_column_witness :
  exists r d',
    nth_error (listActions kindOfClass spanOfInterval lowerCaseAscii tableSkip
                           CodeActionType.LexerAction) 0 = Some r
    /\ info_name r = "Skip"
    /\ info_definition r = Some d'
    /\ (lowerCaseAscii "Skip" = "skip" ->
        column (range_end (def_range d')) = (4 + 3)%Z
        /\ row (range_end (def_range d')) = 1%Z
        /\ range_start (def_range d') = {| column := 4; row := 1 |}
        /\ def_text d' = "skip")
    /\ (lowerCaseAscii "Skip" <> "skip" ->
        d' = {| def_text := "skip";
                def_range := {| range_start := {| column := 4; row := 1 |};
                                range_end := {| column := 5; row := 1 |} |} |}).
Proof.
  apply (listActions_skip_end_column kindOfClass spanOfInterval lowerCaseAscii
           tableSkip CodeActionType.LexerAction [] [actionMore] actionSkip []
           (node 4 5 "skip")
           {| def_text := "skip";
              def_range := {| range_start := {| column := 4; row := 1 |};
                              range_end := {| column := 5; row := 1 |} |} |}).
  - reflexivity.
  - constructor.
  - reflexivity.
  - reflexivity.
Defined.

(** ** symbolContainingContext *)

Lemma BaseSymbol_nested_ind (P : BaseSymbol -> Prop) :
  (forall i c n ctx ks,
      Forall P (match ks with Some l => l | None => [] end) ->
      P (Symbol i c n ctx ks)) ->
  forall s, P s.
Proof.
  intros H. fix IH 1. intros [i c n ctx ks]. apply H.
  destruct ks as [l|]; [|constructor].
  induction l as [|k l IHl]; constructor; [apply IH|exact IHl].
Qed.

Section Containment.

Variable properlyContains : Interval -> Interval -> bool.
Variable context : Interval.

Local Abbreviation findAt := (findAt properlyContains context).
Local Abbreviation findRecursive := (findRecursive properlyContains context).
Local Abbreviation inside := (covers properlyContains context).
Local Abbreviation Enclosing := (Enclosing properlyContains context).
Local Abbreviation Separated := (Separated properlyContains context).

Lemma findAt_unfold (s : BaseSymbol) :
  findAt s =
  if inside s
  then Some (match findRecursive (scopeOf s) with
             | Some found => found
             | None => s
             end)
  else None.
Proof.
  destruct s as [i c n ctx ks]. unfold covers, scopeOf. simpl.
  destruct ctx as [x|]; [|reflexivity].
  destruct (properlyContains (getSourceInterval x) context); [|reflexivity].
  destruct ks as [l|]; [|reflexivity].
  match goal with
  | |- match ?a with _ => _ end = Some (match ?b with _ => _ end) =>
    assert (E : a = b)
  end.
  { induction l as [|k l IH]; [reflexivity|].
    simpl. destruct (findAt k); [reflexivity|exact IH]. }
  rewrite E. destruct (findRecursive l); reflexivity.
Qed.

Lemma findAt_none (s : BaseSymbol) : findAt s = None <-> inside s = false.
Proof.
  rewrite findAt_unfold. destruct (inside s); split; intros H; congruence.
Qed.

Lemma findAt_some_covers (s found : BaseSymbol) :
  findAt s = Some found -> inside s = true.
Proof.
  rewrite findAt_unfold. destruct (inside s); [reflexivity|discriminate].
Qed.

Lemma findRecursive_none (l : list BaseSymbol) :
  findRecursive l = None <-> Forall (fun s => inside s = false) l.
Proof.
  induction l as [|k l IH]; simpl.
  - split; [constructor|reflexivity].
  - destruct (findAt k) eqn:E.
    + split; [discriminate|]. intros H. inversion H as [|? ? Hk _]; subst.
      apply findAt_none in Hk. congruence.
    + rewrite IH. apply findAt_none in E. split.
      * intros H. constructor; assumption.
      * intros H. inversion H; assumption.
Qed.

Lemma findRecursive_skip (before rest : list BaseSymbol) :
  Forall (fun s => inside s = false) before ->
  findRecursive (before ++ rest) = findRecursive rest.
Proof.
  induction 1 as [|k l Hk _ IH]; simpl; [reflexivity|].
  apply findAt_none in Hk. rewrite Hk. exact IH.
Qed.

Lemma findRecursive_some_in (l : list BaseSymbol) (found : BaseSymbol) :
  findRecursive l = Some found ->
  exists k, In k l /\ findAt k = Some found.
Proof.
  induction l as [|k l IH]; simpl; [discriminate|].
  destruct (findAt k) eqn:E.
  - intros H. exists k. split; [left; reflexivity|congruence].
  - intros H. destruct (IH H) as [k' [Hin Hk']]. exists k'. split; [right|]; assumption.
Qed.

Lemma Enclosing_positive (l : list BaseSymbol) (s : BaseSymbol) (n : nat) :
  Enclosing l s n -> 1 <= n.
Proof. destruct 1; lia. Qed.

Lemma Enclosing_some_covers (l : list BaseSymbol) (s : BaseSymbol) (n : nat) :
  Enclosing l s n -> exists a, In a l /\ inside a = true.
Proof. destruct 1 as [l s Hin Hc|l a s n Hin Hc _]; eauto. Qed.

Lemma Enclosing_not_covered (l : list BaseSymbol) (s : BaseSymbol) (n : nat) :
  Forall (fun k => inside k = false) l -> ~ Enclosing l s n.
Proof.
  intros Hall H. destruct (Enclosing_some_covers l s n H) as [a [Hin Hc]].
  rewrite Forall_forall in Hall. rewrite (Hall a Hin) in Hc. discriminate.
Qed.

Lemma findAt_innermost (s : BaseSymbol) :
  forall found,
    findAt s = Some found ->
    Forall (fun k => inside k = false) (scopeOf found)
    /\ inside found = true
    /\ (found = s \/ exists n, Enclosing (scopeOf s) found n).
Proof.
  induction s as [i c n ctx ks IH] using BaseSymbol_nested_ind.
  intros found H. pose proof (findAt_some_covers _ _ H) as Hc.
  rewrite findAt_unfold, Hc in H.
  change (match ks with Some l => l | None => [] end)
    with (scopeOf (Symbol i c n ctx ks)) in IH.
  destruct (findRecursive (scopeOf (Symbol i c n ctx ks))) as [f|] eqn:E.
  - injection H as <-.
    destruct (findRecursive_some_in _ _ E) as [k [Hin Hk]].
    rewrite Forall_forall in IH.
    destruct (IH k Hin f Hk) as [Hinner [Hcf [->|[m Hm]]]].
    + split; [exact Hinner|split; [exact Hcf|]]. right. exists 1.
      apply Enclosing_child; assumption.
    + split; [exact Hinner|split; [exact Hcf|]]. right. exists (S m).
      apply Enclosing_nested with (a := k); try assumption.
      exact (findAt_some_covers _ _ Hk).
  - injection H as <-. apply findRecursive_none in E.
    split; [exact E|split; [exact Hc|left; reflexivity]].
Qed.

Lemma findRecursive_innermost (l : list BaseSymbol) (found : BaseSymbol) :
  findRecursive l = Some found ->
  Forall (fun k => inside k = false) (scopeOf found)
  /\ inside found = true
  /\ exists n, Enclosing l found n.
Proof.
  intros H. destruct (findRecursive_some_in _ _ H) as [k [Hin Hk]].
  destruct (findAt_innermost k found Hk) as [Hinner [Hcf [->|[m Hm]]]].
  - split; [exact Hinner|split; [exact Hcf|]]. exists 1.
    apply Enclosing_child; assumption.
  - split; [exact Hinner|split; [exact Hcf|]]. exists (S m).
    apply Enclosing_nested with (a := k); try assumption.
    exact (findAt_some_covers _ _ Hk).
Qed.

Lemma findRecursive_deepest (l : list BaseSymbol) :
  Separated l ->
  forall found,
    findRecursive l = Some found ->
    exists n,
      Enclosing l found n
      /\ forall s m, Enclosing l s m -> m <= n /\ (m = n -> s = found).
Proof.
  induction 1 as [|k l Hk Hsep IH|k l Hk Hrest Hsep IH]; intros found H.
  - discriminate H.
  - simpl in H. pose proof Hk as Hk'. apply findAt_none in Hk'. rewrite Hk' in H.
    destruct (IH found H) as [n [Hn Hmax]]. exists n. split.
    + inversion Hn; subst.
      * apply Enclosing_child; [right|]; assumption.
      * eapply Enclosing_nested; [right; eassumption|eassumption|assumption].
    + intros s m Hs. apply Hmax. inversion Hs as [? ? Hin Hc|? a ? m' Hin Hc Hd]; subst.
      * destruct Hin as [->|Hin]; [congruence|]. apply Enclosing_child; assumption.
      * destruct Hin as [->|Hin]; [congruence|].
        eapply Enclosing_nested; eassumption.
  - simpl in H. rewrite findAt_unfold, Hk in H.
    assert (Honly : forall a, In a (k :: l) -> inside a = true -> a = k).
    { intros a [<-|Hin] Hc; [reflexivity|].
      rewrite Forall_forall in Hrest. rewrite (Hrest a Hin) in Hc. discriminate. }
    destruct (findRecursive (scopeOf k)) as [f|] eqn:E.
    + injection H as <-. destruct (IH f eq_refl) as [n [Hn Hmax]].
      exists (S n). split.
      * apply Enclosing_nested with (a := k); [left; reflexivity|assumption|assumption].
      * intros s m Hs. inversion Hs as [? ? Hin Hc|? a ? m' Hin Hc Hd]; subst.
        -- pose proof (Enclosing_positive _ _ _ Hn). split; [lia|lia].
        -- rewrite (Honly a Hin Hc) in Hd. destruct (Hmax s m' Hd) as [Hle Heq].
           split; [lia|]. intros Hm. apply Heq. lia.
    + injection H as <-. apply findRecursive_none in E.
      exists 1. split.
      * apply Enclosing_child; [left; reflexivity|assumption].
      * intros s m Hs. inversion Hs as [? ? Hin Hc|? a ? m' Hin Hc Hd]; subst.
        -- split; [lia|]. intros _. apply Honly; assumption.
        -- rewrite (Honly a Hin Hc) in Hd.
           exfalso. exact (Enclosing_not_covered _ _ _ E Hd).
Qed.

End Containment.

Section SearchPath.

Variable properlyContains : Interval -> Interval -> bool.
Variable context : Interval.

Local Abbreviation within := (covers properlyContains context).
Local Abbreviation onPath := (FirstPath properlyContains context).
Local Abbreviation searchAt := (findAt properlyContains context).
Local Abbreviation search := (findRecursive properlyContains context).

Lemma FirstPath_skip (k : BaseSymbol) (l : list BaseSymbol) (found : BaseSymbol) :
  within k = false -> onPath l found -> onPath (k :: l) found.
Proof.
  intros Hk H. destruct H as [before after a Hb Ha Hs|before after a found Hb Ha Hp].
  - apply (FirstPath_stop properlyContains context (k :: before) after a);
      [constructor|..]; assumption.
  - apply (FirstPath_enter properlyContains context (k :: before) after a found);
      [constructor|..]; assumption.
Qed.

Lemma findRecursive_on_path (l : list BaseSymbol) (found : BaseSymbol) :
  onPath l found -> search l = Some found.
Proof.
  induction 1 as [before after a Hb Ha Hs|before after a found Hb Ha _ IH];
    rewrite (findRecursive_skip _ _ _ _ Hb); simpl;
    rewrite (findAt_unfold _ _ a), Ha.
  - apply findRecursive_none in Hs. rewrite Hs. reflexivity.
  - rewrite IH. reflexivity.
Qed.

Lemma findAt_path (s : BaseSymbol) :
  forall found,
    searchAt s = Some found ->
    (found = s /\ Forall (fun k => within k = false) (scopeOf s))
    \/ onPath (scopeOf s) found.
Proof.
  induction s as [i c n ctx ks IH] using BaseSymbol_nested_ind.
  intros found H. pose proof (findAt_some_covers _ _ _ _ H) as Hc.
  rewrite findAt_unfold, Hc in H.
  change (match ks with Some l => l | None => [] end)
    with (scopeOf (Symbol i c n ctx ks)) in IH.
  destruct (search (scopeOf (Symbol i c n ctx ks))) as [f|] eqn:E.
  - injection H as <-. right.
    revert IH E. generalize (scopeOf (Symbol i c n ctx ks)) as l.
    induction l as [|k l IHl]; intros Hall E; [discriminate E|].
    inversion Hall as [|? ? Hk Hl]; subst. simpl in E.
    destruct (searchAt k) as [g|] eqn:Ek.
    + injection E as <-. pose proof (findAt_some_covers _ _ _ _ Ek) as Hck.
      destruct (Hk g eq_refl) as [[-> Hnone]|Hpath].
      * apply (FirstPath_stop properlyContains context [] l k);
          [constructor|assumption|assumption].
      * apply (FirstPath_enter properlyContains context [] l k g);
          [constructor|assumption|assumption].
    + apply FirstPath_skip; [apply findAt_none; exact Ek|].
      apply IHl; assumption.
  - injection H as <-. left. split; [reflexivity|].
    apply findRecursive_none. exact E.
Qed.

Lemma findRecursive_path (l : list BaseSymbol) (found : BaseSymbol) :
  search l = Some found -> onPath l found.
Proof.
  induction l as [|k l IH]; simpl; [discriminate|].
  destruct (searchAt k) as [g|] eqn:Ek.
  - intros H. injection H as <-. pose proof (findAt_some_covers _ _ _ _ Ek) as Hck.
    destruct (findAt_path k g Ek) as [[-> Hnone]|Hpath].
    + apply (FirstPath_stop properlyContains context [] l k);
        [constructor|assumption|assumption].
    + apply (FirstPath_enter properlyContains context [] l k g);
        [constructor|assumption|assumption].
  - intros H. apply FirstPath_skip; [apply findAt_none; exact Ek|].
    apply IH. exact H.
Qed.

End SearchPath.

(** C5. [symbolContainingContext] returns nothing exactly when no child of
    the table has an anchor that contains the node.  Otherwise it follows,
    from the table down, the first child of each scope whose anchor
    contains the node, and returns the last symbol on that path, and no
    other: a symbol that contains the node, that is reached through scopes
    that all contain the node, and none of whose own children contains the
    node.  Where sibling scopes do not both contain the node, it is the
    single most deeply nested symbol among all those reached through
    containing scopes.  With A the first child of the table that contains
    the node and B the first child of A that does, B having no child that
    contains it, the result is B. *)
Theorem symbolContainingContext_innermost
        (properlyContains : Interval -> Interval -> bool)
        (t : ContextSymbolTable) (node : ParseTree) :
  let inside := covers properlyContains (getSourceInterval node) in
  let reached := Enclosing properlyContains (getSourceInterval node) in
  (symbolContainingContext properlyContains t node = None
   <-> Forall (fun s => inside s = false) (children t))
  /\ (forall found,
         symbolContainingContext properlyContains t node = Some found
         <-> FirstPath properlyContains (getSourceInterval node) (children t) found)
  /\ (forall found,
         symbolContainingContext properlyContains t node = Some found ->
         inside found = true
         /\ Forall (fun k => inside k = false) (scopeOf found)
         /\ exists n, reached (children t) found n)
  /\ (Separated properlyContains (getSourceInterval node) (children t) ->
      forall found,
        symbolContainingContext properlyContains t node = Some found ->
        exists n,
          reached (children t) found n
          /\ forall s m, reached (children t) s m -> m <= n /\ (m = n -> s = found))
  /\ (forall before after inA afterB A B,
         children t = before ++ A :: after ->
         Forall (fun s => inside s = false) before ->
         inside A = true ->
         scopeOf A = inA ++ B :: afterB ->
         Forall (fun s => inside s = false) inA ->
         inside B = true ->
         Forall (fun s => inside s = false) (scopeOf B) ->
         symbolContainingContext properlyContains t node = Some B).
Proof.
  intros inside reached. subst inside reached. unfold symbolContainingContext.
  split; [apply findRecursive_none|].
  split.
  { intros found. split; [apply findRecursive_path|apply findRecursive_on_path]. }
  split.
  { intros found H. destruct (findRecursive_innermost _ _ _ _ H) as [H1 [H2 H3]].
    split; [|split]; assumption. }
  split; [apply findRecursive_deepest|].
  intros before after inA afterB A B Hl Hbefore HA HsA HinA HB HsB.
  rewrite Hl, (findRecursive_skip _ _ _ _ Hbefore). simpl.
  rewrite (findAt_unfold _ _ A), HA, HsA, (findRecursive_skip _ _ _ _ HinA). simpl.
  rewrite (findAt_unfold _ _ B), HB.
  apply findRecursive_none in HsB. rewrite HsB. reflexivity.
Qed.

(** In rule [expr], the node of the PLUS reference (tokens 6 to 6) lies in
    the rule and in its alternative, and in none of the references the
    alternative holds: the alternative is returned, not the rule, and it is
    the deepest symbol around the node.  In the table whose first child
    spans its second, the path ends at the first child. *)
Lemma symbolContainingContext_innermost_witness :
  symbolContainingContext boundsWithin tableNested (node 6 6 "PLUS") = Some alternativeB
  /\ symbolContainingContext boundsWithin tableNested (node 10 11 ";") = None
  /\ (exists n,
         Enclosing boundsWithin {| start := 6; stop := 6 |} (children tableNested)
                   alternativeB n
         /\ forall s m,
             Enclosing boundsWithin {| start := 6; stop := 6 |} (children tableNested) s m ->
             m <= n /\ (m = n -> s = alternativeB))
  /\ symbolContainingContext boundsWithin tableOverlap (node 37 37 "LETTER")
     = Some modeSpan
  /\ FirstPath boundsWithin {| start := 6; stop := 6 |} (children tableNested)
               alternativeB.
Proof.
  pose proof (symbolContainingContext_innermost boundsWithin tableNested
                (node 6 6 "PLUS")) as H.
  cbv zeta in H. destruct H as [_ [Hpath [_ [Hdeep H]]]].
  assert (Hfound : symbolContainingContext boundsWithin tableNested (node 6 6 "PLUS")
                   = Some alternativeB).
  { apply (H [optionsBlock] [] [] [] ruleA alternativeB); try reflexivity.
    - constructor; [reflexivity|constructor].
    - constructor.
    - constructor; [reflexivity|constructor; [reflexivity|constructor]]. }
  split; [exact Hfound|]. split.
  { apply (proj1 (symbolContainingContext_innermost boundsWithin tableNested
                    (node 10 11 ";"))).
    constructor; [reflexivity|constructor; [reflexivity|constructor]]. }
  split.
  { apply Hdeep; [|exact Hfound].
    apply Separated_apart; [reflexivity|].
    apply Separated_around; [reflexivity|constructor|].
    apply Separated_around; [reflexivity|constructor|].
    apply Separated_apart; [reflexivity|].
    apply Separated_apart; [reflexivity|]. apply Separated_nil. }
  split.
  - apply (proj2 (proj1 (proj2 (symbolContainingContext_innermost boundsWithin
                                  tableOverlap (node 37 37 "LETTER"))) modeSpan)).
    apply (FirstPath_stop boundsWithin {| start := 37; stop := 37 |}
             [] [tokenID] modeSpan); [constructor|reflexivity|constructor].
  - apply Hpath. exact Hfound.
Defined.

(** A table whose first child, which is no scope, has an anchor that spans
    the anchor of its second child: a node inside the alternative of the
    second child is answered with the first child, one level down, while
    the alternative, two levels down, contains the node as well; so under
    either reading of containment. *)
Lemma symbolContainingContext_deepest_counterexample :
  symbolContainingContext boundsWithin tableOverlap (node 37 37 "LETTER") = Some modeSpan
  /\ symbolContainingContext strictlyWithin tableOverlap (node 37 37 "LETTER")
     = Some modeSpan
  /\ covers strictlyWithin {| start := 37; stop := 37 |} alternativeLetters = true
  /\ Enclosing strictlyWithin {| start := 37; stop := 37 |} (children tableOverlap)
               modeSpan 1
  /\ Enclosing strictlyWithin {| start := 37; stop := 37 |} (children tableOverlap)
               alternativeLetters 2
  /\ Enclosing boundsWithin {| start := 37; stop := 37 |} (children tableOverlap)
               alternativeLetters 2.
Proof.
  split; [reflexivity|]. split; [reflexivity|]. split; [reflexivity|].
  split; [apply Enclosing_child; [left; reflexivity|reflexivity]|].
  split.
  - apply Enclosing_nested with (a := tokenID);
      [right; left; reflexivity|reflexivity|].
    apply Enclosing_child; [left; reflexivity|reflexivity].
  - apply Enclosing_nested with (a := tokenID);
      [right; left; reflexivity|reflexivity|].
    apply Enclosing_child; [left; reflexivity|reflexivity].
Qed.

(** ** clear *)

Lemma resolveSync_cleared (t : ContextSymbolTable) (name : string) (localOnly : bool) :
  resolveSync (fst (clear t)) name localOnly = None.
Proof. destruct t; destruct localOnly; reflexivity. Qed.

Lemma clearCalls_complete (t : ContextSymbolTable) (o d : ISourceContext)
      (dep : ContextSymbolTable) :
  owner t = Some o -> In dep (dependencies t) -> owner dep = Some d ->
  In (RemoveDependency o d) (clearCalls t).
Proof.
  intros Ho Hin Hd. unfold clearCalls. rewrite Ho.
  apply in_flat_map. exists dep. split; [exact Hin|]. rewrite Hd. left. reflexivity.
Qed.

Lemma clearCalls_sound (t : ContextSymbolTable) (call : OwnerCall) :
  In call (clearCalls t) ->
  exists o dep d,
    owner t = Some o /\ In dep (dependencies t) /\ owner dep = Some d
    /\ call = RemoveDependency o d.
Proof.
  unfold clearCalls. destruct (owner t) as [o|]; [|intros []].
  intros H. apply in_flat_map in H. destruct H as [dep [Hin H]].
  destruct (owner dep) as [d|] eqn:Hd; [|destruct H].
  destruct H as [<-|[]]. exists o, dep, d. repeat split; assumption.
Qed.

(** C6. After [clear] no name resolves in the table, with or without
    [localOnly], so every lookup by name or by kind is absent; the five caches
    and the reference counter are empty.  When the table has an owner, that
    owner has received, for every dependency that has an owner, the call to
    remove its dependency on it, and no other call.  No call is made when
    the table has no owner, when it has no dependency, or when no
    dependency has an owner; clearing again makes no call and changes
    nothing. *)
Theorem clear_empties_and_notifies (t : ContextSymbolTable) :
  let cleared := fst (clear t) in
  let calls := snd (clear t) in
  (forall name localOnly, resolveSync cleared name localOnly = None)
  /\ (forall name kind localOnly,
         getSymbolOfType cleared name kind localOnly = None
         /\ symbolExists cleared name kind localOnly = false
         /\ contextForSymbol cleared name kind localOnly = None)
  /\ (forall name group localOnly, symbolExistsInGroup cleared name group localOnly = false)
  /\ (forall getKindFromSymbol definitionForContext name,
         getSymbolInfo getKindFromSymbol definitionForContext cleared (inl name) = None)
  /\ (children cleared = [] /\ dependencies cleared = [])
  /\ (namedActions cleared = [] /\ parserActions cleared = [] /\ lexerActions cleared = []
      /\ parserPredicates cleared = [] /\ lexerPredicates cleared = []
      /\ symbolReferences cleared = [])
  /\ (forall o dep d,
         owner t = Some o -> In dep (dependencies t) -> owner dep = Some d ->
         In (RemoveDependency o d) calls)
  /\ (forall call,
         In call calls ->
         exists o dep d,
           owner t = Some o /\ In dep (dependencies t) /\ owner dep = Some d
           /\ call = RemoveDependency o d)
  /\ (owner t = None -> calls = [])
  /\ (dependencies t = [] -> calls = [])
  /\ (Forall (fun dep => owner dep = None) (dependencies t) -> calls = [])
  /\ clear cleared = (cleared, []).
Proof.
  cbv zeta.
  assert (Hres : forall name localOnly, resolveSync (fst (clear t)) name localOnly = None)
    by (intros; apply resolveSync_cleared).
  assert (Htype : forall name kind localOnly,
             getSymbolOfType (fst (clear t)) name kind localOnly = None).
  { intros name kind localOnly. destruct kind; simpl; rewrite ?Hres; reflexivity. }
  split; [exact Hres|].
  split.
  { intros name kind localOnly. unfold symbolExists, contextForSymbol.
    rewrite Htype. repeat split; reflexivity. }
  split.
  { intros name group localOnly. unfold symbolExistsInGroup, symbolExists.
    rewrite !Htype. destruct group; reflexivity. }
  split.
  { intros getKindFromSymbol definitionForContext name.
    rewrite getSymbolInfo_named, Hres. reflexivity. }
  split; [destruct t; split; reflexivity|].
  split; [destruct t; repeat split; reflexivity|].
  split; [intros o dep d; apply clearCalls_complete|].
  split; [intros call; apply clearCalls_sound|].
  split; [intros H; simpl; unfold clearCalls; rewrite H; reflexivity|].
  split.
  { intros H. simpl. unfold clearCalls. rewrite H. destruct (owner t); reflexivity. }
  split.
  { intros H. simpl. unfold clearCalls. destruct (owner t) as [o|]; [|reflexivity].
    induction H as [|dep l Hd _ IH]; simpl; [reflexivity|]. rewrite Hd. exact IH. }
  destruct t as [n o tr cs deps refs na pa la pp lp].
  unfold clear, clearCalls; simpl. destruct o; reflexivity.
Qed.

(** Clearing T1, whose dependencies T2 and T3 both have an owner. *)
Lemma clear_empties_and_notifies_witness :
  snd (clear tableT1) = [RemoveDependency fileT1 fileT2; RemoveDependency fileT1 fileT3]
  /\ In (RemoveDependency fileT1 fileT3) (snd (clear tableT1))
  /\ snd (clear (newTable "T1" (Some fileT1))) = []
  /\ resolveSync (fst (clear tableT1)) "expr" false = None.
Proof.
  pose proof (clear_empties_and_notifies tableT1) as H. cbv zeta in H.
  destruct H as [Hres [_ [_ [_ [_ [_ [Hcalls [_ [_ _]]]]]]]]].
  pose proof (clear_empties_and_notifies (newTable "T1" (Some fileT1))) as H'.
  cbv zeta in H'. destruct H' as [_ [_ [_ [_ [_ [_ [_ [_ [_ [Hnone _]]]]]]]]]].
  split; [reflexivity|].
  split; [apply (Hcalls fileT1 tableT3 fileT3);
          [reflexivity|right; left; reflexivity|reflexivity]|].
  split; [apply Hnone; reflexivity|apply Hres].
Defined.

(** ** Predicate caches *)

Lemma applyUpdate_lexerPredicates (t : ContextSymbolTable) (u : TableUpdate) :
  lexerPredicates (applyUpdate t u)
  = lexerPredicates t ++ filter isLexerPredicate (definedPredicates [u]).
Proof.
  destruct t as [n o tr cs deps refs na pa la pp lp].
  destruct u as [a|a|a|p|name]; simpl; rewrite ?app_nil_r; try reflexivity.
  - unfold definePredicate, isLexerPredicate.
    destruct (instanceOf (OfClass LexerPredicateSymbol) p); simpl;
      rewrite ?app_nil_r; reflexivity.
  - unfold incrementSymbolRefCount. simpl.
    destruct (mapGet name refs) as [[|m]|]; reflexivity.
Qed.

Lemma applyUpdate_parserPredicates (t : ContextSymbolTable) (u : TableUpdate) :
  parserPredicates (applyUpdate t u)
  = parserPredicates t
    ++ filter (fun p => negb (isLexerPredicate p)) (definedPredicates [u]).
Proof.
  destruct t as [n o tr cs deps refs na pa la pp lp].
  destruct u as [a|a|a|p|name]; simpl; rewrite ?app_nil_r; try reflexivity.
  - unfold definePredicate, isLexerPredicate.
    destruct (instanceOf (OfClass LexerPredicateSymbol) p); simpl;
      rewrite ?app_nil_r; reflexivity.
  - unfold incrementSymbolRefCount. simpl.
    destruct (mapGet name refs) as [[|m]|]; reflexivity.
Qed.

Lemma definedPredicates_cons (u : TableUpdate) (us : list TableUpdate) :
  definedPredicates (u :: us) = definedPredicates [u] ++ definedPredicates us.
Proof. unfold definedPredicates. simpl. rewrite app_nil_r. reflexivity. Qed.

Lemma applyUpdates_lexerPredicates (us : list TableUpdate) (t : ContextSymbolTable) :
  lexerPredicates (applyUpdates t us)
  = lexerPredicates t ++ filter isLexerPredicate (definedPredicates us).
Proof.
  revert t. induction us as [|u us IH]; intros t.
  - simpl. rewrite app_nil_r. reflexivity.
  - unfold applyUpdates in *. simpl fold_left. rewrite IH, applyUpdate_lexerPredicates.
    rewrite (definedPredicates_cons u us), filter_app, app_assoc. reflexivity.
Qed.

Lemma applyUpdates_parserPredicates (us : list TableUpdate) (t : ContextSymbolTable) :
  parserPredicates (applyUpdates t us)
  = parserPredicates t
    ++ filter (fun p => negb (isLexerPredicate p)) (definedPredicates us).
Proof.
  revert t. induction us as [|u us IH]; intros t.
  - simpl. rewrite app_nil_r. reflexivity.
  - unfold applyUpdates in *. simpl fold_left. rewrite IH, applyUpdate_parserPredicates.
    rewrite (definedPredicates_cons u us), filter_app, app_assoc. reflexivity.
Qed.

Lemma nth_error_app_left {A : Type} (l more : list A) (k : nat) (x : A) :
  nth_error l k = Some x -> nth_error (l ++ more) k = Some x.
Proof.
  intros H. rewrite nth_error_app1; [exact H|].
  apply nth_error_Some. rewrite H. discriminate.
Qed.

Lemma applyUpdates_predicateCache (lexer : bool) (us : list TableUpdate)
      (t : ContextSymbolTable) :
  predicateCache lexer (applyUpdates t us)
  = predicateCache lexer t ++ filter (inCategory lexer) (definedPredicates us).
Proof.
  destruct lexer; unfold predicateCache.
  - rewrite applyUpdates_lexerPredicates.
    rewrite (filter_ext isLexerPredicate (inCategory true)); [reflexivity|].
    intros q. unfold inCategory. destruct (isLexerPredicate q); reflexivity.
  - rewrite applyUpdates_parserPredicates.
    rewrite (filter_ext (fun q => negb (isLexerPredicate q)) (inCategory false));
      [reflexivity|].
    intros q. unfold inCategory. destruct (isLexerPredicate q); reflexivity.
Qed.

Lemma actionListOfType_predicates (lexer : bool) (t : ContextSymbolTable) :
  actionListOfType t (predicateType lexer) = predicateCache lexer t.
Proof. destruct lexer; reflexivity. Qed.

(** C8. On a table whose predicate caches are empty, as they are in a new
    table and after [clear], the predicate defined as number k+1 of its
    category, lexer or parser, by a sequence of updates stands at index k
    of that category's cache and of the list the accessor returns, and it
    stays at that index under every further sequence of updates. *)
Theorem predicate_index_is_definition_order
        (t0 : ContextSymbolTable) (us more : list TableUpdate)
        (lexer : bool) (k : nat) (p : BaseSymbol) :
  parserPredicates t0 = [] ->
  lexerPredicates t0 = [] ->
  nth_error (filter (inCategory lexer) (definedPredicates us)) k = Some p ->
  let t := applyUpdates t0 us in
  nth_error (predicateCache lexer t) k = Some p
  /\ nth_error (actionListOfType t (predicateType lexer)) k = Some p
  /\ nth_error (predicateCache lexer (applyUpdates t more)) k = Some p
  /\ nth_error (actionListOfType (applyUpdates t more) (predicateType lexer)) k = Some p.
Proof.
  intros Hp Hl H t.
  assert (H0 : nth_error (predicateCache lexer t) k = Some p).
  { subst t. rewrite applyUpdates_predicateCache.
    replace (predicateCache lexer t0) with (@nil BaseSymbol)
      by (destruct lexer; simpl; congruence).
    exact H. }
  assert (H1 : nth_error (predicateCache lexer (applyUpdates t more)) k = Some p).
  { rewrite applyUpdates_predicateCache. apply nth_error_app_left. exact H0. }
  rewrite !actionListOfType_predicates. split; [|split; [|split]]; assumption.
Qed.

(** Three predicates defined between other updates on a cleared table: the
    second lexer predicate stands at index 1 and stays there. *)
Lemma predicate_index_is_definition_order_witness :
  let us := [DefinePredicate lexerPredicateA; DefineLexerAction actionSkip;
             DefinePredicate parserPredicateC; IncrementSymbolRefCount "PLUS";
             DefinePredicate lexerPredicateB] in
  let more := [DefinePredicate parserPredicateC; DefinePredicate lexerPredicateA] in
  let t := applyUpdates (fst (clear tableT1)) us in
  nth_error (lexerPredicates t) 1 = Some lexerPredicateB
  /\ nth_error (actionListOfType t CodeActionType.LexerPredicate) 1 = Some lexerPredicateB
  /\ nth_error (lexerPredicates (applyUpdates t more)) 1 = Some lexerPredicateB
  /\ nth_error (actionListOfType (applyUpdates t more) CodeActionType.LexerPredicate) 1
     = Some lexerPredicateB.
Proof.
  cbv zeta.
  apply (predicate_index_is_definition_order (fst (clear tableT1))
           [DefinePredicate lexerPredicateA; DefineLexerAction actionSkip;
            DefinePredicate parserPredicateC; IncrementSymbolRefCount "PLUS";
            DefinePredicate lexerPredicateB]
           [DefinePredicate parserPredicateC; DefinePredicate lexerPredicateA]
           true 1 lexerPredicateB); reflexivity.
Defined.

(** ** listTopLevelSymbols *)

Lemma getAllSymbolsSync_unfold (t : ContextSymbolTable) (c : SymbolConstructor)
      (localOnly : bool) :
  getAllSymbolsSync t c localOnly
  = map (refIn t) (filter (instanceOf c) (children t))
    ++ (if localOnly then []
        else flat_map (fun d => getAllSymbolsSync d c localOnly) (dependencies t)).
Proof.
  destruct t as [n o tr cs deps refs na pa la pp lp]. reflexivity.
Qed.

Lemma uniqueRefs_refIn (t : ContextSymbolTable) (l : list BaseSymbol) (seen : list nat) :
  uniqueRefs seen (map (refIn t) l) = map (refIn t) (uniqueSymbols seen l).
Proof.
  revert seen. induction l as [|s l IH]; intros seen; simpl; [reflexivity|].
  destruct (existsb (Nat.eqb (sym_ident s)) seen); simpl; rewrite IH; reflexivity.
Qed.

Lemma existsb_eqb_In (n : nat) (seen : list nat) :
  existsb (Nat.eqb n) seen = true <-> In n seen.
Proof.
  rewrite existsb_exists. split.
  - intros [x [Hin Hx]]. apply Nat.eqb_eq in Hx. subst x. exact Hin.
  - intros H. exists n. split; [exact H|apply Nat.eqb_refl].
Qed.

Lemma uniqueSymbols_Forall (P : BaseSymbol -> Prop) (l : list BaseSymbol) (seen : list nat) :
  Forall P l -> Forall P (uniqueSymbols seen l).
Proof.
  intros H. revert seen. induction H as [|s l Hs _ IH]; intros seen; simpl; [constructor|].
  destruct (existsb (Nat.eqb (sym_ident s)) seen); [apply IH|].
  constructor; [exact Hs|apply IH].
Qed.

Lemma uniqueSymbols_In (l : list BaseSymbol) (seen : list nat) (s : BaseSymbol) :
  In s (uniqueSymbols seen l) -> In s l /\ ~ In (sym_ident s) seen.
Proof.
  revert seen. induction l as [|x l IH]; intros seen; simpl; [intros []|].
  destruct (existsb (Nat.eqb (sym_ident x)) seen) eqn:E.
  - intros H. destruct (IH _ H) as [H1 H2]. split; [right|]; assumption.
  - intros [<-|H].
    + split; [left; reflexivity|]. intros Hin. apply existsb_eqb_In in Hin. congruence.
    + destruct (IH _ H) as [H1 H2]. split; [right; exact H1|].
      intros Hin. apply H2. right. exact Hin.
Qed.

Lemma uniqueSymbols_NoDup (l : list BaseSymbol) (seen : list nat) :
  NoDup (map sym_ident (uniqueSymbols seen l)).
Proof.
  revert seen. induction l as [|x l IH]; intros seen; simpl; [constructor|].
  destruct (existsb (Nat.eqb (sym_ident x)) seen); [apply IH|].
  simpl. constructor; [|apply IH].
  intros Hin. apply in_map_iff in Hin. destruct Hin as [y [Hy Hin]].
  apply uniqueSymbols_In in Hin. destruct Hin as [_ Hn]. apply Hn. left. congruence.
Qed.

Lemma uniqueSymbols_covers (l : list BaseSymbol) (seen : list nat) (s : BaseSymbol) :
  In s l -> In (sym_ident s) seen \/ In (sym_ident s) (map sym_ident (uniqueSymbols seen l)).
Proof.
  revert seen. induction l as [|x l IH]; intros seen; simpl; [intros []|].
  destruct (existsb (Nat.eqb (sym_ident x)) seen) eqn:E.
  - intros [<-|H]; [left; apply existsb_eqb_In; exact E|apply IH; exact H].
  - intros [<-|H]; [right; left; reflexivity|].
    destruct (IH (sym_ident x :: seen) H) as [[Hx|Hs]|Hs].
    + right. left. exact Hx.
    + left. exact Hs.
    + right. right. exact Hs.
Qed.

Lemma uniqueSymbols_distinct (l : list BaseSymbol) (seen : list nat) :
  NoDup (map sym_ident l) ->
  (forall s, In s l -> ~ In (sym_ident s) seen) ->
  uniqueSymbols seen l = l.
Proof.
  revert seen. induction l as [|x l IH]; intros seen Hnd Hseen; simpl; [reflexivity|].
  simpl in Hnd. inversion Hnd as [|? ? Hx Hnd']; subst.
  destruct (existsb (Nat.eqb (sym_ident x)) seen) eqn:E.
  - apply existsb_eqb_In in E. exfalso. apply (Hseen x); [left; reflexivity|exact E].
  - f_equal. apply IH; [exact Hnd'|].
    intros s Hs [Heq|Hin].
    + apply Hx. rewrite Heq. apply in_map. exact Hs.
    + apply (Hseen s); [right; exact Hs|exact Hin].
Qed.

Lemma filter_instances (c : SymbolClass) (l : list BaseSymbol) :
  Forall (fun s => sym_class s = c) (filter (instanceOf (OfClass c)) l).
Proof.
  apply Forall_forall. intros s H. apply filter_In in H. destruct H as [_ H].
  simpl in H. unfold classEqb in H.
  destruct (SymbolClass_eq_dec (sym_class s) c); [assumption|discriminate].
Qed.

Lemma filter_of_class (c c' : SymbolClass) (l : list BaseSymbol) :
  Forall (fun s => sym_class s = c') l ->
  filter (instanceOf (OfClass c)) l = if classEqb c' c then l else [].
Proof.
  induction 1 as [|s l Hs _ IH]; simpl.
  - destruct (classEqb c' c); reflexivity.
  - rewrite Hs, IH. destruct (classEqb c' c); reflexivity.
Qed.

Lemma category_block_filter (c c' : SymbolClass) (l : list BaseSymbol) :
  filter (instanceOf (OfClass c))
         (uniqueSymbols [] (filter (instanceOf (OfClass c')) l))
  = if classEqb c' c
    then uniqueSymbols [] (filter (instanceOf (OfClass c')) l)
    else [].
Proof.
  apply filter_of_class. apply uniqueSymbols_Forall. apply filter_instances.
Qed.

Lemma StronglySorted_app {A : Type} (R : A -> A -> Prop) (l1 l2 : list A) :
  StronglySorted R l1 -> StronglySorted R l2 ->
  (forall x y, In x l1 -> In y l2 -> R x y) ->
  StronglySorted R (l1 ++ l2).
Proof.
  induction 1 as [|x l1 Hs IH Hx]; intros H2 Hcross; simpl; [exact H2|].
  constructor.
  - apply IH; [exact H2|]. intros a b Ha Hb. apply Hcross; [right|]; assumption.
  - apply Forall_app. split; [exact Hx|].
    apply Forall_forall. intros y Hy. apply Hcross; [left; reflexivity|exact Hy].
Qed.

Lemma StronglySorted_constant {A : Type} (rk : A -> nat) (k : nat) (l : list A) :
  Forall (fun s => rk s = k) l -> StronglySorted (fun a b => rk a <= rk b) l.
Proof.
  induction 1 as [|x l Hx Hl IH]; constructor; [exact IH|].
  apply Forall_forall. intros y Hy. rewrite Forall_forall in Hl.
  rewrite Hx, (Hl y Hy). apply Nat.le_refl.
Qed.

Lemma flat_map_ranked (rk : BaseSymbol -> nat) (f : SymbolClass -> list BaseSymbol)
      (order : list SymbolClass) (k : nat) :
  (forall i c, nth_error order i = Some c -> Forall (fun s => rk s = k + i) (f c)) ->
  StronglySorted (fun a b => rk a <= rk b) (flat_map f order)
  /\ Forall (fun s => k <= rk s) (flat_map f order).
Proof.
  revert k. induction order as [|c order IH]; intros k H; simpl.
  - split; constructor.
  - pose proof (H 0 c eq_refl) as Hc. rewrite Nat.add_0_r in Hc.
    destruct (IH (S k)) as [Hs Hge].
    { intros i c' Hi. rewrite Nat.add_succ_comm. apply (H (S i) c' Hi). }
    split.
    + apply StronglySorted_app; [apply (StronglySorted_constant rk k); exact Hc|exact Hs|].
      intros x y Hx Hy. rewrite Forall_forall in Hc, Hge.
      rewrite (Hc x Hx). pose proof (Hge y Hy). lia.
    + apply Forall_app. split.
      * apply Forall_forall. intros x Hx. rewrite Forall_forall in Hc.
        rewrite (Hc x Hx). apply Nat.le_refl.
      * apply Forall_forall. intros x Hx. rewrite Forall_forall in Hge.
        pose proof (Hge x Hx). lia.
Qed.

Section Outline.

Variable getKindFromSymbol : BaseSymbol -> SymbolKind.t.
Variable definitionForContext : option ParseTree -> bool -> option IDefinition.

Local Abbreviation symbolsOfType := (symbolsOfType getKindFromSymbol definitionForContext).
Local Abbreviation symbolRecord := (symbolRecord getKindFromSymbol definitionForContext).
Local Abbreviation listTopLevelSymbols :=
  (listTopLevelSymbols getKindFromSymbol definitionForContext).
Local Abbreviation tokenVocabEntry :=
  (tokenVocabEntry getKindFromSymbol definitionForContext).

Lemma symbolsOfType_local (t : ContextSymbolTable) (c : SymbolClass) :
  symbolsOfType t (OfClass c) true
  = map (symbolRecord (owner t))
        (uniqueSymbols [] (filter (instanceOf (OfClass c)) (children t))).
Proof.
  unfold Table.symbolsOfType. cbv zeta.
  rewrite getAllSymbolsSync_unfold, app_nil_r, uniqueRefs_refIn, map_map.
  reflexivity.
Qed.

Lemma getSymbolInfo_record (t : ContextSymbolTable) (symbol : SymbolRef) :
  exists r,
    getSymbolInfo getKindFromSymbol definitionForContext t (inr symbol) = Some r
    /\ info_name r = sym_name (ref_symbol symbol)
    /\ (getKindFromSymbol (ref_symbol symbol) <> SymbolKind.Terminal ->
        r = described definitionForContext (getKindFromSymbol (ref_symbol symbol))
                      (sym_name (ref_symbol symbol)) symbol).
Proof.
  rewrite getSymbolInfo_given. cbv zeta.
  destruct (getKindFromSymbol (ref_symbol symbol)) eqn:K;
    try (eexists; split; [reflexivity|split; [reflexivity|intros _; reflexivity]]).
  destruct (forEach _ _ _) as [s k]. eexists.
  split; [reflexivity|split; [reflexivity|intros H; contradiction H; reflexivity]].
Qed.

Lemma tokenVocabEntry_option (t : ContextSymbolTable) :
  match tokenVocabSymbol t with
  | None => tokenVocabEntry t = []
  | Some tokenVocab =>
    exists r,
      tokenVocabEntry t = [r]
      /\ getSymbolInfo getKindFromSymbol definitionForContext t (inr (refIn t tokenVocab))
         = Some r
      /\ info_name r = "tokenVocab"
      /\ (getKindFromSymbol tokenVocab <> SymbolKind.Terminal ->
          r = {| info_kind := getKindFromSymbol tokenVocab;
                 info_name := "tokenVocab";
                 info_source :=
                   match sym_context tokenVocab, owner t with
                   | Some _, Some o => fileName o
                   | _, _ => "ANTLR runtime"
                   end;
                 info_definition := definitionForContext (sym_context tokenVocab) true;
                 info_description := None |})
  end.
Proof.
  assert (Hsome : forall tokenVocab,
             sym_name tokenVocab = "tokenVocab" ->
             exists r,
               match getSymbolInfo getKindFromSymbol definitionForContext t
                                   (inr (refIn t tokenVocab)) with
               | Some value => [value]
               | None => []
               end = [r]
               /\ getSymbolInfo getKindFromSymbol definitionForContext t
                                (inr (refIn t tokenVocab)) = Some r
               /\ info_name r = "tokenVocab"
               /\ (getKindFromSymbol tokenVocab <> SymbolKind.Terminal ->
                   r = {| info_kind := getKindFromSymbol tokenVocab;
                          info_name := "tokenVocab";
                          info_source :=
                            match sym_context tokenVocab, owner t with
                            | Some _, Some o => fileName o
                            | _, _ => "ANTLR runtime"
                            end;
                          info_definition :=
                            definitionForContext (sym_context tokenVocab) true;
                          info_description := None |})).
  { intros tokenVocab Hname.
    destruct (getSymbolInfo_record t (refIn t tokenVocab)) as [r [Hr [Hn Hk]]].
    exists r. rewrite Hr. split; [reflexivity|]. split; [reflexivity|].
    split; [rewrite Hn; exact Hname|].
    intros K. rewrite (Hk K). unfold described, tableOwner. simpl.
    rewrite Hname. reflexivity. }
  unfold Table.tokenVocabEntry, tokenVocabSymbol.
  rewrite resolveSync_unfold.
  destruct (findByName "options" (children t)) as [options|]; [|reflexivity].
  unfold resolveInSymbol. simpl ref_symbol.
  destruct (sym_scope options) as [ks|].
  - destruct (findByName "tokenVocab" ks) as [tokenVocab|] eqn:E; [|reflexivity].
    apply Hsome. exact (findByName_name _ _ _ E).
  - rewrite resolveSync_unfold.
    destruct (findByName "tokenVocab" (children t)) as [tokenVocab|] eqn:E;
      [|reflexivity].
    apply Hsome. exact (findByName_name _ _ _ E).
Qed.


End Outline.


(** ** getSymbolOccurrences *)

Lemma ContextSymbolTable_nested_ind (P : ContextSymbolTable -> Prop) :
  (forall t, Forall P (dependencies t) -> P t) ->
  forall t, P t.
Proof.
  intros H. fix IH 1. intros t. apply H.
  destruct t as [n o tr cs deps refs na pa la pp lp]. simpl.
  induction deps as [|d deps IHd]; constructor; [apply IH|exact IHd].
Qed.

Lemma getAllSymbolsSync_home (c : SymbolConstructor) (localOnly : bool)
      (t : ContextSymbolTable) :
  forall r,
    In r (getAllSymbolsSync t c localOnly) ->
    exists tb,
      ref_table r = Some tb /\ Reaches t tb /\ In (ref_symbol r) (children tb)
      /\ (localOnly = true -> tb = t).
Proof.
  induction t as [t IH] using ContextSymbolTable_nested_ind.
  intros r Hr. rewrite getAllSymbolsSync_unfold in Hr.
  apply in_app_or in Hr. destruct Hr as [Hr|Hr].
  - apply in_map_iff in Hr. destruct Hr as [s [<- Hs]].
    apply filter_In in Hs. destruct Hs as [Hs _].
    exists t. simpl. repeat split; [constructor|exact Hs].
  - destruct localOnly; [destruct Hr|].
    apply in_flat_map in Hr. destruct Hr as [d [Hd Hr]].
    rewrite Forall_forall in IH. destruct (IH d Hd r Hr) as [tb [H1 [H2 [H3 _]]]].
    exists tb. repeat split; try assumption.
    + apply Reaches_dependency with (d := d); assumption.
    + discriminate.
Qed.

Lemma Forall2_In_right {A B : Type} (R : A -> B -> Prop) (l : list A) (l' : list B) :
  Forall2 R l l' -> forall y, In y l' -> exists x, In x l /\ R x y.
Proof.
  induction 1 as [|x y l l' Hxy _ IH]; intros z Hz; [destruct Hz|].
  destruct Hz as [<-|Hz].
  - exists x. split; [left; reflexivity|exact Hxy].
  - destruct (IH z Hz) as [x' [Hin Hr]]. exists x'. split; [right|]; assumption.
Qed.

Section Occurrences.

Variable getKindFromSymbol : BaseSymbol -> SymbolKind.t.
Variable definitionForContext : option ParseTree -> bool -> option IDefinition.

Local Abbreviation occurrencesOf :=
  (occurrencesOf getKindFromSymbol definitionForContext).
Local Abbreviation occurrencesLoop :=
  (occurrencesLoop getKindFromSymbol definitionForContext).
Local Abbreviation getSymbolOccurrences :=
  (getSymbolOccurrences getKindFromSymbol definitionForContext).

Lemma occurrencesOf_no_owner (symbolName : string) (r : SymbolRef) :
  tableOwner r = None -> occurrencesOf symbolName r = Normal [].
Proof. intros H. unfold Table.occurrencesOf. rewrite H. reflexivity. Qed.

Lemma occurrencesOf_source (symbolName : string) (r : SymbolRef)
      (l : list ISymbolInfo) :
  occurrencesOf symbolName r = Normal l ->
  forall x, In x l ->
            info_name x = symbolName
            /\ exists o, tableOwner r = Some o /\ info_source x = fileName o.
Proof.
  unfold Table.occurrencesOf. cbv zeta.
  destruct (tableOwner r) as [o|].
  2:{ intros H x Hx. injection H as <-. destruct Hx. }
  intros H x Hx.
  assert (Hnested : forall y,
             In y match sym_scope (ref_symbol r) with
                  | Some ks =>
                    map (fun reference =>
                           {| info_kind := getKindFromSymbol reference;
                              info_name := symbolName;
                              info_source := fileName o;
                              info_definition :=
                                definitionForContext (sym_context reference) true;
                              info_description := None |})
                        (getAllNestedSymbolsSync symbolName ks)
                  | None => []
                  end ->
             info_name y = symbolName
             /\ exists o', Some o = Some o' /\ info_source y = fileName o').
  { intros y Hy. destruct (sym_scope (ref_symbol r)); [|destruct Hy].
    apply in_map_iff in Hy. destruct Hy as [k [<- _]]. simpl.
    split; [reflexivity|]. exists o. split; reflexivity. }
  destruct (sym_context (ref_symbol r)) as [ctx|].
  2:{ injection H as <-. apply Hnested. exact Hx. }
  destruct (String.eqb (sym_name (ref_symbol r)) symbolName).
  2:{ injection H as <-. apply Hnested. exact Hx. }
  match type of H with
  | match ?c with _ => _ end = _ => destruct c as [context|]; [|discriminate H]
  end.
  injection H as <-. destruct Hx as [<-|Hx]; [|apply Hnested; exact Hx].
  simpl. split; [reflexivity|]. exists o. split; reflexivity.
Qed.

Lemma occurrencesLoop_parts (symbolName : string) (symbols : list SymbolRef) :
  forall acc result,
    occurrencesLoop symbolName symbols acc = Normal result ->
    exists parts,
      result = acc ++ List.concat parts
      /\ Forall2 (fun r p => occurrencesOf symbolName r = Normal p) symbols parts.
Proof.
  induction symbols as [|r symbols IH]; intros acc result H; simpl in H.
  - injection H as <-. exists []. simpl. rewrite app_nil_r. split; constructor.
  - destruct (occurrencesOf symbolName r) as [l|] eqn:E; [|discriminate H].
    destruct (IH _ _ H) as [parts [-> Hparts]].
    exists (l :: parts). simpl. rewrite app_assoc. split; [reflexivity|].
    constructor; assumption.
Qed.

Lemma occurrencesLoop_no_owner (symbolName : string) (own rest : list SymbolRef)
      (acc : list ISymbolInfo) :
  Forall (fun r => tableOwner r = None) own ->
  occurrencesLoop symbolName (own ++ rest) acc = occurrencesLoop symbolName rest acc.
Proof.
  induction 1 as [|r own Hr _ IH]; simpl; [reflexivity|].
  rewrite (occurrencesOf_no_owner symbolName r Hr), app_nil_r. exact IH.
Qed.

Lemma own_symbols_no_owner (t : ContextSymbolTable) (l : list BaseSymbol) :
  owner t = None -> Forall (fun r => tableOwner r = None) (map (refIn t) l).
Proof.
  intros H. apply Forall_forall. intros r Hr. apply in_map_iff in Hr.
  destruct Hr as [s [<- _]]. exact H.
Qed.

Lemma occurrencesOf_origin (symbolName : string) (r : SymbolRef)
      (l : list ISymbolInfo) :
  occurrencesOf symbolName r = Normal l ->
  forall x, In x l ->
            exists o k,
              tableOwner r = Some o
              /\ info_source x = fileName o
              /\ (k = ref_symbol r
                  \/ In k (getAllNestedSymbolsSync symbolName (scopeOf (ref_symbol r))))
              /\ info_kind x = getKindFromSymbol k.
Proof.
  unfold Table.occurrencesOf, scopeOf. cbv zeta.
  destruct (tableOwner r) as [o|].
  2:{ intros H x Hx. injection H as <-. destruct Hx. }
  intros H x Hx.
  assert (Hnested : forall y,
             In y match sym_scope (ref_symbol r) with
                  | Some ks =>
                    map (fun reference =>
                           {| info_kind := getKindFromSymbol reference;
                              info_name := symbolName;
                              info_source := fileName o;
                              info_definition :=
                                definitionForContext (sym_context reference) true;
                              info_description := None |})
                        (getAllNestedSymbolsSync symbolName ks)
                  | None => []
                  end ->
             exists o' k,
               Some o = Some o'
               /\ info_source y = fileName o'
               /\ (k = ref_symbol r
                   \/ In k (getAllNestedSymbolsSync symbolName
                              match sym_scope (ref_symbol r) with
                              | Some ks => ks
                              | None => []
                              end))
               /\ info_kind y = getKindFromSymbol k).
  { intros y Hy. destruct (sym_scope (ref_symbol r)); [|destruct Hy].
    apply in_map_iff in Hy. destruct Hy as [k [<- Hk]]. simpl.
    exists o, k. repeat split. right. exact Hk. }
  destruct (sym_context (ref_symbol r)) as [ctx|].
  2:{ injection H as <-. apply Hnested. exact Hx. }
  destruct (String.eqb (sym_name (ref_symbol r)) symbolName).
  2:{ injection H as <-. apply Hnested. exact Hx. }
  match type of H with
  | match ?c with _ => _ end = _ => destruct c as [context|]; [|discriminate H]
  end.
  injection H as <-. destruct Hx as [<-|Hx]; [|apply Hnested; exact Hx].
  simpl. exists o, (ref_symbol r). repeat split. left. reflexivity.
Qed.

Lemma occurrencesLoop_owned (symbolName : string) (l : list SymbolRef) :
  forall acc,
    occurrencesLoop symbolName l acc
    = occurrencesLoop symbolName (filter ownedRef l) acc.
Proof.
  induction l as [|r l IH]; intros acc; simpl; [reflexivity|].
  unfold ownedRef at 1. destruct (tableOwner r) as [o|] eqn:E; simpl.
  - destruct (occurrencesOf symbolName r); [apply IH|reflexivity].
  - rewrite (occurrencesOf_no_owner symbolName r E), app_nil_r. apply IH.
Qed.

Lemma occurrencesLoop_from (symbolName : string) (l : list SymbolRef) :
  forall acc,
    occurrencesLoop symbolName l acc
    = match occurrencesLoop symbolName l [] with
      | Normal r => Normal (acc ++ r)
      | TypeError => TypeError
      end.
Proof.
  induction l as [|r l IH]; intros acc; simpl.
  - rewrite app_nil_r. reflexivity.
  - destruct (occurrencesOf symbolName r) as [p|]; [|reflexivity].
    rewrite (IH (acc ++ p)), (IH p).
    destruct (occurrencesLoop symbolName l []); [|reflexivity].
    rewrite app_assoc. reflexivity.
Qed.

Lemma occurrencesLoop_app (symbolName : string) (a b : list SymbolRef) :
  forall acc,
    occurrencesLoop symbolName (a ++ b) acc
    = match occurrencesLoop symbolName a acc with
      | Normal r => occurrencesLoop symbolName b r
      | TypeError => TypeError
      end.
Proof.
  induction a as [|r a IH]; intros acc; simpl; [reflexivity|].
  destruct (occurrencesOf symbolName r); [apply IH|reflexivity].
Qed.

Lemma occurrencesLoop_each (symbolName : string)
      (f : ContextSymbolTable -> list SymbolRef) (deps : list ContextSymbolTable) :
  forall records,
    occurrencesLoop symbolName (flat_map f deps) [] = Normal records ->
    exists parts,
      Forall2 (fun d p => occurrencesLoop symbolName (f d) [] = Normal p) deps parts
      /\ records = List.concat parts.
Proof.
  induction deps as [|d deps IH]; intros records H; simpl in H.
  - injection H as <-. exists []. split; constructor.
  - rewrite occurrencesLoop_app in H.
    destruct (occurrencesLoop symbolName (f d) []) as [p|] eqn:Ed; [|discriminate H].
    rewrite occurrencesLoop_from in H.
    destruct (occurrencesLoop symbolName (flat_map f deps) []) as [q|] eqn:Eq;
      [|discriminate H].
    injection H as <-. destruct (IH q eq_refl) as [parts [Hparts ->]].
    exists (p :: parts). split; [constructor; assumption|reflexivity].
Qed.

(** C10. Every record [getSymbolOccurrences] returns names the symbol
    asked for and carries the file name of the owner of a table: of the
    table itself, or, unless [localOnly], of a table reached through its
    dependencies.  The symbols of a table without an owner are passed
    over, with all the references nested in them: such a table returns
    no occurrence of its own, and without [localOnly] its result is what
    the symbols of its dependencies contribute.  This holds at every
    level: the result is the one the loop gives on the visited symbols
    whose table has an owner, in the same order; without [localOnly] it is
    the table's local result followed by the results of its dependencies,
    each asked in turn; and every record stems from a visited symbol, or a
    symbol nested in it, and carries the file of the owner of that
    symbol's table. *)
Theorem getSymbolOccurrences_needs_owner
        (t : ContextSymbolTable) (symbolName : string) :
  (forall localOnly records,
      getSymbolOccurrences t symbolName localOnly = Normal records ->
      forall r, In r records ->
                info_name r = symbolName
                /\ exists tb o,
                    Reaches t tb /\ (localOnly = true -> tb = t)
                    /\ owner tb = Some o /\ info_source r = fileName o)
  /\ (owner t = None -> getSymbolOccurrences t symbolName true = Normal [])
  /\ (owner t = None ->
      getSymbolOccurrences t symbolName false
      = occurrencesLoop symbolName
          (flat_map (fun d => getAllSymbolsSync d AnySymbol false) (dependencies t)) [])
  /\ (forall s,
         In s (children t) -> owner t = None ->
         occurrencesOf symbolName (refIn t s) = Normal [])
  /\ (forall localOnly,
         getSymbolOccurrences t symbolName localOnly
         = occurrencesLoop symbolName
             (filter ownedRef (getAllSymbolsSync t AnySymbol localOnly)) [])
  /\ (forall records,
         getSymbolOccurrences t symbolName false = Normal records ->
         exists own parts,
           getSymbolOccurrences t symbolName true = Normal own
           /\ Forall2 (fun d p => getSymbolOccurrences d symbolName false = Normal p)
                      (dependencies t) parts
           /\ records = own ++ List.concat parts)
  /\ (forall localOnly records,
         getSymbolOccurrences t symbolName localOnly = Normal records ->
         forall r, In r records ->
                   exists sref tb o k,
                     In sref (getAllSymbolsSync t AnySymbol localOnly)
                     /\ ref_table sref = Some tb
                     /\ In (ref_symbol sref) (children tb)
                     /\ owner tb = Some o
                     /\ info_source r = fileName o
                     /\ (k = ref_symbol sref
                         \/ In k (getAllNestedSymbolsSync symbolName
                                    (scopeOf (ref_symbol sref))))
                     /\ info_kind r = getKindFromSymbol k).
Proof.
  split.
  { intros localOnly records H r Hr. unfold Table.getSymbolOccurrences in H.
    destruct (occurrencesLoop_parts _ _ _ _ H) as [parts [-> Hparts]].
    simpl in Hr. apply in_concat in Hr. destruct Hr as [p [Hp Hr]].
    destruct (Forall2_In_right _ _ _ Hparts p Hp) as [sref [Hs Hocc]].
    destruct (occurrencesOf_source _ _ _ Hocc r Hr) as [Hname [o [Ho Hsrc]]].
    split; [exact Hname|].
    destruct (getAllSymbolsSync_home _ _ _ _ Hs) as [tb [Htb [Hreach [_ Hlocal]]]].
    exists tb, o. unfold tableOwner in Ho. rewrite Htb in Ho.
    repeat split; assumption. }
  split.
  { intros Ho. unfold Table.getSymbolOccurrences.
    rewrite getAllSymbolsSync_unfold.
    rewrite (occurrencesLoop_no_owner symbolName _ [] []
               (own_symbols_no_owner t _ Ho)).
    reflexivity. }
  split.
  { intros Ho. unfold Table.getSymbolOccurrences.
    rewrite getAllSymbolsSync_unfold.
    apply (occurrencesLoop_no_owner symbolName _ _ [] (own_symbols_no_owner t _ Ho)). }
  split.
  { intros s _ Ho. apply occurrencesOf_no_owner. exact Ho. }
  split.
  { intros localOnly. unfold Table.getSymbolOccurrences. apply occurrencesLoop_owned. }
  split.
  { intros records H. unfold Table.getSymbolOccurrences in *.
    rewrite getAllSymbolsSync_unfold in H.
    rewrite getAllSymbolsSync_unfold, app_nil_r.
    rewrite occurrencesLoop_app in H.
    destruct (occurrencesLoop symbolName
                (map (refIn t) (filter (instanceOf AnySymbol) (children t))) [])
      as [own|]; [|discriminate H].
    rewrite occurrencesLoop_from in H.
    destruct (occurrencesLoop symbolName
                (flat_map (fun d => getAllSymbolsSync d AnySymbol false)
                          (dependencies t)) []) as [q|] eqn:Eq; [|discriminate H].
    injection H as <-.
    destruct (occurrencesLoop_each symbolName _ _ q Eq) as [parts [Hparts ->]].
    exists own, parts. split; [reflexivity|split; [exact Hparts|reflexivity]]. }
  intros localOnly records H r Hr. unfold Table.getSymbolOccurrences in H.
  destruct (occurrencesLoop_parts _ _ _ _ H) as [parts [-> Hparts]].
  simpl in Hr. apply in_concat in Hr. destruct Hr as [p [Hp Hr]].
  destruct (Forall2_In_right _ _ _ Hparts p Hp) as [sref [Hs Hocc]].
  destruct (occurrencesOf_origin _ _ _ Hocc r Hr) as [o [k [Ho [Hsrc [Hk Hkind]]]]].
  destruct (getAllSymbolsSync_home _ _ _ _ Hs) as [tb [Htb [_ [Hchild _]]]].
  exists sref, tb, o, k. unfold tableOwner in Ho. rewrite Htb in Ho.
  repeat split; assumption.
Qed.

End Occurrences.

(** A table without an owner that declares PLUS and depends on T2: locally
    no occurrence of PLUS, and with the dependencies only that of T2.  The
    same holds one level up: a table with an owner that depends on it
    reports the PLUS of T2 and not the PLUS of the table without owner. *)
Lemma getSymbolOccurrences_needs_owner_witness :
  getSymbolOccurrences kindOfClass spanOfInterval tableNoOwner "PLUS" true = Normal []
  /\ getSymbolOccurrences kindOfClass spanOfInterval tableNoOwner "PLUS" false
     = Normal [ {| info_kind := SymbolKind.LexerRule;
                   info_name := "PLUS";
                   info_source := "T2.g4";
                   info_definition := None;
                   info_description := None |} ]
  /\ (forall r,
         In r [ {| info_kind := SymbolKind.LexerRule;
                   info_name := "PLUS";
                   info_source := "T2.g4";
                   info_definition := None;
                   info_description := None |} ] ->
         info_name r = "PLUS"
         /\ exists tb o,
             Reaches tableNoOwner tb /\ (false = true -> tb = tableNoOwner)
             /\ owner tb = Some o /\ info_source r = fileName o)
  /\ getSymbolOccurrences kindOfClass spanOfInterval tableOverNoOwner "PLUS" false
     = Normal [ {| info_kind := SymbolKind.LexerRule;
                   info_name := "PLUS";
                   info_source := "T2.g4";
                   info_definition := None;
                   info_description := None |} ]
  /\ exists own parts,
      getSymbolOccurrences kindOfClass spanOfInterval tableOverNoOwner "PLUS" true
      = Normal own
      /\ Forall2 (fun d p => getSymbolOccurrences kindOfClass spanOfInterval d "PLUS" false
                             = Normal p)
                 (dependencies tableOverNoOwner) parts
      /\ [ {| info_kind := SymbolKind.LexerRule;
              info_name := "PLUS";
              info_source := "T2.g4";
              info_definition := None;
              info_description := None |} ] = own ++ List.concat parts.
Proof.
  pose proof (getSymbolOccurrences_needs_owner kindOfClass spanOfInterval
                tableNoOwner "PLUS") as [Hall [Hlocal _]].
  pose proof (getSymbolOccurrences_needs_owner kindOfClass spanOfInterval
                tableOverNoOwner "PLUS") as [_ [_ [_ [_ [Howned [Hparts _]]]]]].
  split; [apply Hlocal; reflexivity|].
  split; [reflexivity|].
  split; [apply (Hall false); reflexivity|].
  split; [rewrite (Howned false); reflexivity|].
  apply Hparts. reflexivity.
Defined.

(** ** Reference counts *)

Lemma mapGet_mapSet_same (k : string) (v : nat) (m : list (string * nat)) :
  mapGet k (mapSet k v m) = Some v.
Proof.
  induction m as [|[k' v'] m IH]; simpl.
  - rewrite String.eqb_refl. reflexivity.
  - destruct (String.eqb k' k) eqn:E; simpl.
    + rewrite String.eqb_refl. reflexivity.
    + rewrite E. exact IH.
Qed.

Lemma mapGet_mapSet_other (k k' : string) (v : nat) (m : list (string * nat)) :
  k <> k' -> mapGet k' (mapSet k v m) = mapGet k' m.
Proof.
  intros Hk. induction m as [|[k0 v0] m IH]; simpl.
  - destruct (String.eqb_spec k k'); [contradiction|reflexivity].
  - destruct (String.eqb_spec k0 k) as [->|Hk0]; simpl.
    + destruct (String.eqb_spec k k'); [contradiction|reflexivity].
    + destruct (String.eqb k0 k'); [reflexivity|exact IH].
Qed.

Lemma symbolReferences_setSymbolReferences (t : ContextSymbolTable)
      (m : list (string * nat)) :
  symbolReferences (setSymbolReferences t m) = m.
Proof. destruct t; reflexivity. Qed.

Lemma getReferenceCount_increment (t : ContextSymbolTable) (n name : string) :
  getReferenceCount (incrementSymbolRefCount t n) name
  = getReferenceCount t name + (if String.eqb n name then 1 else 0).
Proof.
  unfold getReferenceCount, incrementSymbolRefCount.
  destruct (String.eqb_spec n name) as [->|Hn].
  - destruct (mapGet name (symbolReferences t)) as [[|c]|];
      rewrite symbolReferences_setSymbolReferences, mapGet_mapSet_same; simpl; lia.
  - destruct (mapGet n (symbolReferences t)) as [[|c]|];
      rewrite symbolReferences_setSymbolReferences, (mapGet_mapSet_other _ _ _ _ Hn);
      lia.
Qed.

Lemma symbolReferences_define (t : ContextSymbolTable) (u : TableUpdate) :
  match u with
  | IncrementSymbolRefCount _ => True
  | _ => symbolReferences (applyUpdate t u) = symbolReferences t
  end.
Proof.
  destruct t as [n o tr cs deps refs na pa la pp lp].
  destruct u as [a|a|a|p|name]; simpl; try exact I; try reflexivity.
  unfold definePredicate.
  destruct (instanceOf (OfClass LexerPredicateSymbol) p); reflexivity.
Qed.

Lemma getReferenceCount_applyUpdate (t : ContextSymbolTable) (u : TableUpdate)
      (name : string) :
  getReferenceCount (applyUpdate t u) name
  = getReferenceCount t name + incrementsOf name [u].
Proof.
  pose proof (symbolReferences_define t u) as H.
  destruct u as [a|a|a|p|n];
    try (unfold getReferenceCount; rewrite H; unfold incrementsOf; simpl; lia).
  simpl applyUpdate. rewrite getReferenceCount_increment.
  unfold incrementsOf. simpl. destruct (String.eqb n name); reflexivity.
Qed.

Lemma incrementsOf_cons (name : string) (u : TableUpdate) (us : list TableUpdate) :
  incrementsOf name (u :: us) = incrementsOf name [u] + incrementsOf name us.
Proof.
  unfold incrementsOf. simpl.
  destruct u as [a|a|a|p|n]; try reflexivity.
  destruct (String.eqb n name); reflexivity.
Qed.

(** X1. The count [getReferenceCount] reports for a name after a sequence
    of updates is the count before plus the number of calls of
    [incrementSymbolRefCount] for that very name; on a new table it is the
    number of those calls, and 0 for a name never counted. *)
Theorem getReferenceCount_counts_increments
        (t : ContextSymbolTable) (us : list TableUpdate) (name : string) :
  getReferenceCount (applyUpdates t us) name
  = getReferenceCount t name + incrementsOf name us
  /\ (forall n o,
         getReferenceCount (applyUpdates (newTable n o) us) name = incrementsOf name us).
Proof.
  assert (H : forall t0,
             getReferenceCount (applyUpdates t0 us) name
             = getReferenceCount t0 name + incrementsOf name us).
  { induction us as [|u us IH]; intros t0.
    - simpl. unfold incrementsOf. simpl. lia.
    - unfold applyUpdates in *. simpl fold_left.
      rewrite IH, getReferenceCount_applyUpdate, (incrementsOf_cons name u us). lia. }
  split; [apply H|]. intros n o. rewrite H. reflexivity.
Qed.

Lemma mapSet_positive (k : string) (v : nat) (m : list (string * nat)) :
  v <> 0 ->
  Forall (fun entry => snd entry <> 0) m ->
  Forall (fun entry => snd entry <> 0) (mapSet k v m).
Proof.
  intros Hv. induction m as [|[k' v'] m IH]; intros H; simpl.
  - constructor; [exact Hv|constructor].
  - inversion H as [|? ? He Hm]; subst.
    destruct (String.eqb k' k); constructor; try assumption.
    apply IH. exact Hm.
Qed.

Lemma applyUpdate_positive (t : ContextSymbolTable) (u : TableUpdate) :
  Forall (fun entry => snd entry <> 0) (symbolReferences t) ->
  Forall (fun entry => snd entry <> 0) (symbolReferences (applyUpdate t u)).
Proof.
  intros H. pose proof (symbolReferences_define t u) as Hu.
  destruct u as [a|a|a|p|n]; try (rewrite Hu; exact H).
  simpl. unfold incrementSymbolRefCount.
  destruct (mapGet n (symbolReferences t)) as [[|c]|];
    rewrite symbolReferences_setSymbolReferences; apply mapSet_positive;
      try assumption; lia.
Qed.

Lemma applyUpdates_positive (us : list TableUpdate) (t : ContextSymbolTable) :
  Forall (fun entry => snd entry <> 0) (symbolReferences t) ->
  Forall (fun entry => snd entry <> 0) (symbolReferences (applyUpdates t us)).
Proof.
  revert t. induction us as [|u us IH]; intros t H; [exact H|].
  unfold applyUpdates in *. simpl. apply IH. apply applyUpdate_positive. exact H.
Qed.

Lemma getUnreferencedSymbols_positive (t : ContextSymbolTable) :
  Forall (fun entry => snd entry <> 0) (symbolReferences t) ->
  getUnreferencedSymbols t = [].
Proof.
  unfold getUnreferencedSymbols. intros H.
  induction H as [|[k v] m He _ IH]; simpl; [reflexivity|].
  simpl in He. destruct v; [contradiction|exact IH].
Qed.

(** X2. No update records a count of 0: [incrementSymbolRefCount] stores 1
    or more, and nothing else writes the counter.  So on a table that was
    new or cleared and has since seen any sequence of updates,
    [getUnreferencedSymbols] returns no name at all. *)
Theorem getUnreferencedSymbols_always_empty (us : list TableUpdate) :
  (forall n o, getUnreferencedSymbols (applyUpdates (newTable n o) us) = [])
  /\ (forall t, getUnreferencedSymbols (applyUpdates (fst (clear t)) us) = []).
Proof.
  split.
  - intros n o. apply getUnreferencedSymbols_positive, applyUpdates_positive.
    constructor.
  - intros t. apply getUnreferencedSymbols_positive, applyUpdates_positive.
    destruct t; constructor.
Qed.

(** ** Action counts *)

Lemma applyUpdate_namedActions (t : ContextSymbolTable) (u : TableUpdate) :
  namedActions (applyUpdate t u) = namedActions t ++ definedNamedActions [u].
Proof.
  destruct t as [n o tr cs deps refs na pa la pp lp].
  destruct u as [a|a|a|p|name]; simpl; rewrite ?app_nil_r; try reflexivity.
  - unfold definePredicate.
    destruct (instanceOf (OfClass LexerPredicateSymbol) p); reflexivity.
  - unfold incrementSymbolRefCount. simpl.
    destruct (mapGet name refs) as [[|m]|]; reflexivity.
Qed.

Lemma applyUpdate_parserActions (t : ContextSymbolTable) (u : TableUpdate) :
  parserActions (applyUpdate t u) = parserActions t ++ definedParserActions [u].
Proof.
  destruct t as [n o tr cs deps refs na pa la pp lp].
  destruct u as [a|a|a|p|name]; simpl; rewrite ?app_nil_r; try reflexivity.
  - unfold definePredicate.
    destruct (instanceOf (OfClass LexerPredicateSymbol) p); reflexivity.
  - unfold incrementSymbolRefCount. simpl.
    destruct (mapGet name refs) as [[|m]|]; reflexivity.
Qed.

Lemma applyUpdate_lexerActions (t : ContextSymbolTable) (u : TableUpdate) :
  lexerActions (applyUpdate t u) = lexerActions t ++ definedLexerActions [u].
Proof.
  destruct t as [n o tr cs deps refs na pa la pp lp].
  destruct u as [a|a|a|p|name]; simpl; rewrite ?app_nil_r; try reflexivity.
  - unfold definePredicate.
    destruct (instanceOf (OfClass LexerPredicateSymbol) p); reflexivity.
  - unfold incrementSymbolRefCount. simpl.
    destruct (mapGet name refs) as [[|m]|]; reflexivity.
Qed.

Lemma applyUpdates_cache
      (cache : ContextSymbolTable -> list BaseSymbol)
      (defined : list TableUpdate -> list BaseSymbol) :
  (forall t u, cache (applyUpdate t u) = cache t ++ defined [u]) ->
  (forall u us, defined (u :: us) = defined [u] ++ defined us) ->
  defined [] = [] ->
  forall us t, cache (applyUpdates t us) = cache t ++ defined us.
Proof.
  intros Hstep Hcons Hnil us. induction us as [|u us IH]; intros t.
  - simpl. rewrite Hnil, app_nil_r. reflexivity.
  - unfold applyUpdates in *. simpl fold_left.
    rewrite IH, Hstep, (Hcons u us), app_assoc. reflexivity.
Qed.

Lemma applyUpdates_namedActions (us : list TableUpdate) (t : ContextSymbolTable) :
  namedActions (applyUpdates t us) = namedActions t ++ definedNamedActions us.
Proof.
  apply (applyUpdates_cache namedActions definedNamedActions);
    [apply applyUpdate_namedActions| |reflexivity].
  intros u l. unfold definedNamedActions. simpl. rewrite app_nil_r. reflexivity.
Qed.

Lemma applyUpdates_parserActions (us : list TableUpdate) (t : ContextSymbolTable) :
  parserActions (applyUpdates t us) = parserActions t ++ definedParserActions us.
Proof.
  apply (applyUpdates_cache parserActions definedParserActions);
    [apply applyUpdate_parserActions| |reflexivity].
  intros u l. unfold definedParserActions. simpl. rewrite app_nil_r. reflexivity.
Qed.

Lemma applyUpdates_lexerActions (us : list TableUpdate) (t : ContextSymbolTable) :
  lexerActions (applyUpdates t us) = lexerActions t ++ definedLexerActions us.
Proof.
  apply (applyUpdates_cache lexerActions definedLexerActions);
    [apply applyUpdate_lexerActions| |reflexivity].
  intros u l. unfold definedLexerActions. simpl. rewrite app_nil_r. reflexivity.
Qed.

Lemma filter_length_split {A : Type} (f : A -> bool) (l : list A) :
  List.length (filter f l) + List.length (filter (fun x => negb (f x)) l) = List.length l.
Proof.
  induction l as [|x l IH]; simpl; [reflexivity|].
  destruct (f x); simpl; lia.
Qed.

Lemma named_filters_disjoint (l : list BaseSymbol) :
  List.length (filter (instanceOf (OfClass LocalNamedActionSymbol)) l)
  + List.length (filter (instanceOf (OfClass GlobalNamedActionSymbol)) l)
  <= List.length l.
Proof.
  induction l as [|s l IH]; simpl; [lia|].
  destruct s as [i c n ctx ks]. unfold classEqb. simpl.
  destruct c; simpl; lia.
Qed.

(** X3. On a table whose caches are empty, after any sequence of updates
    the counts of [getActionCounts] are the numbers of calls: every
    [defineParserAction] and every [defineLexerAction] is counted under its
    type, every [definePredicate] is counted under exactly one of the two
    predicate types, and the two named counts together never exceed the
    number of calls of [defineNamedAction] (a named action that is neither
    local nor global is counted under neither). *)
Theorem getActionCounts_counts_definitions
        (t0 : ContextSymbolTable) (us : list TableUpdate) :
  freshCaches t0 ->
  let counts := getActionCounts (applyUpdates t0 us) in
  countFor CodeActionType.ParserAction counts
  = Some (List.length (definedParserActions us))
  /\ countFor CodeActionType.LexerAction counts
     = Some (List.length (definedLexerActions us))
  /\ (exists p l,
         countFor CodeActionType.ParserPredicate counts = Some p
         /\ countFor CodeActionType.LexerPredicate counts = Some l
         /\ p + l = List.length (definedPredicates us))
  /\ (exists loc glob,
         countFor CodeActionType.LocalNamed counts = Some loc
         /\ countFor CodeActionType.GlobalNamed counts = Some glob
         /\ loc + glob <= List.length (definedNamedActions us)).
Proof.
  intros [_ [Hna [Hpa [Hla [Hpp Hlp]]]]]. cbv zeta.
  unfold getActionCounts. simpl countFor.
  rewrite applyUpdates_parserActions, applyUpdates_lexerActions,
    applyUpdates_parserPredicates, applyUpdates_lexerPredicates,
    applyUpdates_namedActions, Hna, Hpa, Hla, Hpp, Hlp. simpl app.
  split; [reflexivity|]. split; [reflexivity|]. split.
  - eexists. eexists. split; [reflexivity|]. split; [reflexivity|].
    rewrite Nat.add_comm. apply filter_length_split.
  - eexists. eexists. split; [reflexivity|]. split; [reflexivity|].
    apply named_filters_disjoint.
Qed.

Lemma getActionCounts_counts_definitions_witness :
  let us := [DefinePredicate lexerPredicateA; DefineLexerAction actionSkip;
             DefinePredicate parserPredicateC; DefineNamedAction actionOne;
             DefinePredicate lexerPredicateB] in
  let counts := getActionCounts (applyUpdates (newTable "T1" (Some fileT1)) us) in
  countFor CodeActionType.ParserAction counts = Some 0
  /\ countFor CodeActionType.LexerAction counts = Some 1
  /\ (exists p l,
         countFor CodeActionType.ParserPredicate counts = Some p
         /\ countFor CodeActionType.LexerPredicate counts = Some l
         /\ p + l = 3)
  /\ (exists loc glob,
         countFor CodeActionType.LocalNamed counts = Some loc
         /\ countFor CodeActionType.GlobalNamed counts = Some glob
         /\ loc + glob <= 1).
Proof.
  cbv zeta.
  apply (getActionCounts_counts_definitions (newTable "T1" (Some fileT1))
           [DefinePredicate lexerPredicateA; DefineLexerAction actionSkip;
            DefinePredicate parserPredicateC; DefineNamedAction actionOne;
            DefinePredicate lexerPredicateB]).
  repeat split; reflexivity.
Defined.

Section ActionCounts.

Variable getKindFromSymbol : BaseSymbol -> SymbolKind.t.
Variable definitionForContext : option ParseTree -> bool -> option IDefinition.
Variable toLowerCase : string -> string.

Local Abbreviation recordOf :=
  (actionRecord getKindFromSymbol definitionForContext toLowerCase).
Local Abbreviation loopOf :=
  (actionLoop getKindFromSymbol definitionForContext toLowerCase).
Local Abbreviation listOf :=
  (listActions getKindFromSymbol definitionForContext toLowerCase).

Lemma actionLoop_length (t : ContextSymbolTable) (l : list BaseSymbol) :
  forall acc,
    match loopOf t l acc with
    | (result, Normal _) => List.length result = List.length acc + List.length l
    | (result, TypeError) => List.length result < List.length acc + List.length l
    end.
Proof.
  induction l as [|e l IH]; intros acc; simpl.
  - lia.
  - destruct (recordOf t e) as [r|].
    + specialize (IH (acc ++ [r])). rewrite length_app in IH. simpl in IH.
      destruct (loopOf t l (acc ++ [r])) as [result [u|]]; lia.
    + lia.
Qed.

Lemma actionLoop_anchored (t : ContextSymbolTable) (l : list BaseSymbol) :
  Forall (fun e => sym_context e <> None) l ->
  forall acc, snd (loopOf t l acc) = Normal tt.
Proof.
  induction 1 as [|e l He _ IH]; intros acc; simpl; [reflexivity|].
  unfold Table.actionRecord. destruct (sym_context e); [apply IH|contradiction].
Qed.

(** X4. [listActions] never returns more records than [getActionCounts]
    counts for the type, the error record included; when every entry of
    the type has a syntax anchor it returns exactly that many. *)
Theorem listActions_within_count (t : ContextSymbolTable) (type : CodeActionType.t) :
  exists n,
    countFor type (getActionCounts t) = Some n
    /\ n = List.length (actionListOfType t type)
    /\ List.length (listOf t type) <= n
    /\ (Forall (fun e => sym_context e <> None) (actionListOfType t type) ->
        List.length (listOf t type) = n).
Proof.
  exists (List.length (actionListOfType t type)).
  split; [destruct type; reflexivity|]. split; [reflexivity|].
  unfold Table.listActions.
  pose proof (actionLoop_length t (actionListOfType t type) []) as H.
  split.
  - destruct (loopOf t (actionListOfType t type) []) as [result [u|]]; simpl in H.
    + lia.
    + rewrite length_app. simpl. lia.
  - intros Hall. pose proof (actionLoop_anchored t _ Hall []) as Hok.
    destruct (loopOf t (actionListOfType t type) []) as [result [u|]]; simpl in *.
    + lia.
    + discriminate Hok.
Qed.

End ActionCounts.

Lemma listActions_within_count_witness :
  exists n,
    countFor CodeActionType.LexerAction (getActionCounts tableSkip) = Some n
    /\ n = 2
    /\ List.length (listActions kindOfClass spanOfInterval lowerCaseAscii tableSkip
                                CodeActionType.LexerAction) <= n
    /\ (Forall (fun e => sym_context e <> None) [actionSkip; actionMore] ->
        List.length (listActions kindOfClass spanOfInterval lowerCaseAscii tableSkip
                                 CodeActionType.LexerAction) = n).
Proof.
  exact (listActions_within_count kindOfClass spanOfInterval lowerCaseAscii tableSkip
           CodeActionType.LexerAction).
Defined.

(** ** Lookups by kind and by group *)

(** X5. The four groups of [symbolExistsInGroup] cannot be told apart:
    whichever of them is asked, the answer is whether the name resolves to
    any symbol at all; a group outside the four is never matched. *)
Theorem symbolExistsInGroup_groups_agree
        (t : ContextSymbolTable) (name : string) (localOnly : bool)
        (group : SymbolGroupKind.t) :
  symbolExistsInGroup t name group localOnly
  = match group with
    | SymbolGroupKind.Other _ => false
    | _ => isDefined (resolveSync t name localOnly)
    end.
Proof.
  destruct group; unfold symbolExistsInGroup;
    rewrite ?symbolExists_by_name by reflexivity;
    try destruct (isDefined (resolveSync t name localOnly)); reflexivity.
Qed.

Lemma resolveSync_local_first (t : ContextSymbolTable) (name : string) (r : SymbolRef) :
  resolveSync t name true = Some r -> resolveSync t name false = Some r.
Proof.
  rewrite !resolveSync_unfold.
  destruct (findByName name (children t)); [trivial|discriminate].
Qed.

(** X6. A lookup that succeeds with [localOnly] returns the same symbol
    without it: what the table declares itself hides what its dependencies
    declare, for every kind, and [symbolExists] and [contextForSymbol]
    follow. *)
Theorem getSymbolOfType_local_first
        (t : ContextSymbolTable) (name : string) (kind : SymbolKind.t) (r : SymbolRef) :
  getSymbolOfType t name kind true = Some r ->
  getSymbolOfType t name kind false = Some r
  /\ symbolExists t name kind false = true
  /\ contextForSymbol t name kind false = contextForSymbol t name kind true.
Proof.
  intros H.
  assert (H' : getSymbolOfType t name kind false = Some r).
  { destruct kind; simpl in *; try discriminate H;
      try (apply resolveSync_local_first; exact H).
    destruct (resolveSync t "options" true) as [options|]; [|discriminate H].
    unfold resolveInSymbol in *.
    destruct (sym_scope (ref_symbol options)) as [ks|].
    - destruct (findByName name ks); [exact H|discriminate H].
    - apply resolveSync_local_first. exact H. }
  unfold symbolExists, contextForSymbol. rewrite H, H'. repeat split.
Qed.

Lemma getSymbolOfType_local_first_witness :
  getSymbolOfType tableT1 "expr" SymbolKind.ParserRule false
  = Some (refIn tableT1 ruleExpr)
  /\ symbolExists tableT1 "expr" SymbolKind.ParserRule false = true
  /\ contextForSymbol tableT1 "expr" SymbolKind.ParserRule false
     = contextForSymbol tableT1 "expr" SymbolKind.ParserRule true.
Proof.
  apply (getSymbolOfType_local_first tableT1 "expr" SymbolKind.ParserRule
           (refIn tableT1 ruleExpr)).
  reflexivity.
Defined.

(** ** Descriptions of symbols *)

Lemma firstResolved_name (name : string) (ds : list ContextSymbolTable) (r : SymbolRef) :
  Forall (fun d => forall localOnly r',
              resolveSync d name localOnly = Some r' ->
              sym_name (ref_symbol r') = name) ds ->
  firstResolved ds name = Some r -> sym_name (ref_symbol r) = name.
Proof.
  induction 1 as [|d ds Hd _ IH]; simpl; [discriminate|].
  destruct (resolveSync d name false) as [r'|] eqn:E.
  - intros H. injection H as <-. apply (Hd false). exact E.
  - exact IH.
Qed.

Lemma resolveSync_name (name : string) (t : ContextSymbolTable) :
  forall localOnly r,
    resolveSync t name localOnly = Some r -> sym_name (ref_symbol r) = name.
Proof.
  induction t as [t IH] using ContextSymbolTable_nested_ind.
  intros localOnly r. rewrite resolveSync_unfold.
  destruct (findByName name (children t)) as [s|] eqn:E.
  - intros H. injection H as <-. simpl. exact (findByName_name _ _ _ E).
  - destruct localOnly; [discriminate|]. apply firstResolved_name. exact IH.
Qed.

Section Descriptions.

Variable getKindFromSymbol : BaseSymbol -> SymbolKind.t.
Variable definitionForContext : option ParseTree -> bool -> option IDefinition.

Local Abbreviation infoOf := (getSymbolInfo getKindFromSymbol definitionForContext).

Lemma getSymbolInfo_given_name (t : ContextSymbolTable) (symbol : SymbolRef) :
  exists info,
    infoOf t (inr symbol) = Some info
    /\ info_name info = sym_name (ref_symbol symbol).
Proof.
  rewrite getSymbolInfo_given. cbv zeta.
  destruct (getKindFromSymbol (ref_symbol symbol));
    try (eexists; split; reflexivity).
  destruct (forEach _ _ _) as [s k]. eexists. split; reflexivity.
Qed.

(** X7. Given a symbol, [getSymbolInfo] always returns a record, and the
    record bears the symbol's name, also when a dependency's symbol is
    substituted.  Given a name, it returns nothing exactly when the name
    resolves neither in the table nor through its dependencies, and else a
    record that bears that name. *)
Theorem getSymbolInfo_by_name (t : ContextSymbolTable) (name : string) :
  (infoOf t (inl name) = None <-> resolveSync t name false = None)
  /\ (forall info, infoOf t (inl name) = Some info -> info_name info = name)
  /\ (forall symbol,
         exists info,
           infoOf t (inr symbol) = Some info
           /\ info_name info = sym_name (ref_symbol symbol)).
Proof.
  split; [|split].
  - rewrite getSymbolInfo_named. destruct (resolveSync t name false) as [r|].
    + destruct (getSymbolInfo_given_name t r) as [info [Hi _]]. rewrite Hi.
      split; discriminate.
    + split; reflexivity.
  - intros info. rewrite getSymbolInfo_named.
    destruct (resolveSync t name false) as [r|] eqn:E; [|discriminate].
    destruct (getSymbolInfo_given_name t r) as [info' [Hi Hn]]. rewrite Hi.
    intros H. injection H as <-. rewrite Hn. exact (resolveSync_name _ _ _ _ E).
  - apply getSymbolInfo_given_name.
Qed.

(** X8. A symbol that is not a terminal and has no syntax anchor, or whose
    table has no owner, is reported with the source "ANTLR runtime",
    whatever the table asked and its dependencies. *)
Theorem getSymbolInfo_runtime_source (t : ContextSymbolTable) (symbol : SymbolRef) :
  getKindFromSymbol (ref_symbol symbol) <> SymbolKind.Terminal ->
  sym_context (ref_symbol symbol) = None \/ tableOwner symbol = None ->
  infoOf t (inr symbol)
  = Some {| info_kind := getKindFromSymbol (ref_symbol symbol);
            info_name := sym_name (ref_symbol symbol);
            info_source := "ANTLR runtime";
            info_definition :=
              definitionForContext (sym_context (ref_symbol symbol)) true;
            info_description := None |}.
Proof.
  intros K H. rewrite getSymbolInfo_given. cbv zeta.
  assert (E : described definitionForContext (getKindFromSymbol (ref_symbol symbol))
                        (sym_name (ref_symbol symbol)) symbol
              = {| info_kind := getKindFromSymbol (ref_symbol symbol);
                   info_name := sym_name (ref_symbol symbol);
                   info_source := "ANTLR runtime";
                   info_definition :=
                     definitionForContext (sym_context (ref_symbol symbol)) true;
                   info_description := None |}).
  { unfold described. destruct H as [H|H]; rewrite H.
    - reflexivity.
    - destruct (sym_context (ref_symbol symbol)); reflexivity. }
  destruct (getKindFromSymbol (ref_symbol symbol)) eqn:Hk;
    try (rewrite <- E; reflexivity).
  contradiction K; reflexivity.
Qed.

End Descriptions.

Lemma getSymbolInfo_runtime_source_witness :
  getSymbolInfo kindOfClass spanOfInterval tableT1 (inr (refIn tableT1 builtInEOF))
  = Some {| info_kind := SymbolKind.BuiltInLexerToken;
            info_name := "EOF";
            info_source := "ANTLR runtime";
            info_definition := None;
            info_description := None |}.
Proof.
  apply (getSymbolInfo_runtime_source kindOfClass spanOfInterval tableT1
           (refIn tableT1 builtInEOF)).
  - discriminate.
  - left. reflexivity.
Defined.

(** ** The outline with dependencies *)

Lemma uniqueRefs_app (a b : list SymbolRef) :
  forall seen, exists seen',
      uniqueRefs seen (a ++ b) = uniqueRefs seen a ++ uniqueRefs seen' b.
Proof.
  induction a as [|r a IH]; intros seen; simpl.
  - exists seen. reflexivity.
  - destruct (existsb (Nat.eqb (sym_ident (ref_symbol r))) seen).
    + apply IH.
    + destruct (IH (sym_ident (ref_symbol r) :: seen)) as [seen' H].
      exists seen'. rewrite H. reflexivity.
Qed.

Lemma uniqueRefs_same_seen (l : list SymbolRef) :
  forall seen seen',
    (forall n, existsb (Nat.eqb n) seen = existsb (Nat.eqb n) seen') ->
    uniqueRefs seen l = uniqueRefs seen' l.
Proof.
  induction l as [|r l IH]; intros seen seen' H; simpl; [reflexivity|].
  rewrite (H (sym_ident (ref_symbol r))).
  destruct (existsb (Nat.eqb (sym_ident (ref_symbol r))) seen').
  - apply IH. exact H.
  - f_equal. apply IH. intros n. simpl. rewrite (H n). reflexivity.
Qed.

Lemma uniqueRefs_after (a b : list SymbolRef) :
  forall seen,
    uniqueRefs seen (a ++ b)
    = uniqueRefs seen a
      ++ uniqueRefs (map (fun r => sym_ident (ref_symbol r)) a ++ seen) b.
Proof.
  induction a as [|r a IH]; intros seen; simpl; [reflexivity|].
  destruct (existsb (Nat.eqb (sym_ident (ref_symbol r))) seen) eqn:E.
  - rewrite IH. f_equal. apply uniqueRefs_same_seen. intros n. simpl.
    rewrite !existsb_app.
    destruct (Nat.eqb n (sym_ident (ref_symbol r))) eqn:En; [|reflexivity].
    apply Nat.eqb_eq in En. subst n. rewrite E, orb_true_r. reflexivity.
  - rewrite IH. simpl. f_equal. f_equal. apply uniqueRefs_same_seen. intros n.
    simpl. rewrite !existsb_app. simpl.
    destruct (Nat.eqb n (sym_ident (ref_symbol r)));
      destruct (existsb (Nat.eqb n) (map (fun r0 => sym_ident (ref_symbol r0)) a));
      reflexivity.
Qed.

Lemma uniqueRefs_In (l : list SymbolRef) :
  forall seen r,
    In r (uniqueRefs seen l) ->
    In r l /\ existsb (Nat.eqb (sym_ident (ref_symbol r))) seen = false.
Proof.
  induction l as [|x l IH]; intros seen r H; simpl in H; [destruct H|].
  destruct (existsb (Nat.eqb (sym_ident (ref_symbol x))) seen) eqn:E.
  - destruct (IH _ _ H) as [Hin Hseen]. split; [right; exact Hin|exact Hseen].
  - destruct H as [<-|H]; [split; [left; reflexivity|exact E]|].
    destruct (IH _ _ H) as [Hin Hseen]. split; [right; exact Hin|].
    simpl in Hseen. apply orb_false_iff in Hseen. apply Hseen.
Qed.

Section FullOutline.

Variable getKindFromSymbol : BaseSymbol -> SymbolKind.t.
Variable definitionForContext : option ParseTree -> bool -> option IDefinition.

Local Abbreviation categoryOf := (symbolsOfType getKindFromSymbol definitionForContext).
Local Abbreviation outlineOf :=
  (listTopLevelSymbols getKindFromSymbol definitionForContext).
Local Abbreviation recordOf := (refRecord getKindFromSymbol definitionForContext).

Lemma symbolsOfType_local_prefix (t : ContextSymbolTable) (c : SymbolConstructor) :
  exists rest, categoryOf t c false = categoryOf t c true ++ rest.
Proof.
  unfold Table.symbolsOfType. cbv zeta.
  rewrite !getAllSymbolsSync_unfold, app_nil_r.
  destruct (uniqueRefs_app (map (refIn t) (filter (instanceOf c) (children t)))
              (flat_map (fun d => getAllSymbolsSync d c false) (dependencies t)) [])
    as [seen' H].
  rewrite H, map_app. eexists. reflexivity.
Qed.

Lemma symbolsOfType_local_included (t : ContextSymbolTable) (c : SymbolConstructor)
      (r : ISymbolInfo) :
  In r (categoryOf t c true) -> In r (categoryOf t c false).
Proof.
  intros H. destruct (symbolsOfType_local_prefix t c) as [rest ->].
  apply in_or_app. left. exact H.
Qed.

Lemma symbolsOfType_dependencies (t : ContextSymbolTable) (c : SymbolConstructor) :
  categoryOf t c false
  = categoryOf t c true
    ++ map recordOf
         (uniqueRefs
            (map sym_ident (filter (instanceOf c) (children t)))
            (flat_map (fun d => getAllSymbolsSync d c false) (dependencies t))).
Proof.
  unfold Table.symbolsOfType. cbv zeta.
  rewrite !getAllSymbolsSync_unfold, app_nil_r.
  rewrite uniqueRefs_after, map_app, app_nil_r, map_map. reflexivity.
Qed.

Lemma symbolsOfType_no_dependencies (t : ContextSymbolTable) (c : SymbolConstructor) :
  dependencies t = [] -> categoryOf t c false = categoryOf t c true.
Proof.
  intros H. rewrite symbolsOfType_dependencies, H. simpl. apply app_nil_r.
Qed.

(** X9. Asking for the outline with the dependencies only adds to it:
    within every category the records of the table's own symbols come
    first, in the same order as in the local outline, and the records of
    the dependencies follow; every record of [listTopLevelSymbols(true)]
    is a record of [listTopLevelSymbols(false)].  What follows the local
    records is fixed: the records of the symbols of that category that the
    dependencies hold, asked in the order of the dependencies, each symbol
    once and none of the table's own symbols again, each with the file
    name of its own table.  A table without dependencies has the same
    outline either way. *)
Theorem listTopLevelSymbols_local_included (t : ContextSymbolTable) :
  (forall c, exists rest, categoryOf t c false = categoryOf t c true ++ rest)
  /\ (forall r, In r (outlineOf t true) -> In r (outlineOf t false))
  /\ (forall c,
         categoryOf t c false
         = categoryOf t c true
           ++ map recordOf
                (uniqueRefs
                   (map sym_ident (filter (instanceOf c) (children t)))
                   (flat_map (fun d => getAllSymbolsSync d c false) (dependencies t))))
  /\ (forall c sref,
         In sref (uniqueRefs
                    (map sym_ident (filter (instanceOf c) (children t)))
                    (flat_map (fun d => getAllSymbolsSync d c false) (dependencies t))) ->
         (exists d, In d (dependencies t) /\ In sref (getAllSymbolsSync d c false))
         /\ (forall s, In s (children t) -> instanceOf c s = true ->
                       sym_ident s <> sym_ident (ref_symbol sref)))
  /\ (dependencies t = [] -> outlineOf t false = outlineOf t true).
Proof.
  split; [intros c; apply symbolsOfType_local_prefix|].
  split.
  { intros r. unfold Table.listTopLevelSymbols. rewrite !in_app_iff.
    pose proof (fun c => symbolsOfType_local_included t c r) as Hin.
    intuition auto. }
  split; [intros c; apply symbolsOfType_dependencies|].
  split.
  { intros c sref H. apply uniqueRefs_In in H. destruct H as [Hin Hseen]. split.
    - apply in_flat_map in Hin. exact Hin.
    - intros s Hs Hc E.
      assert (Hex : existsb (Nat.eqb (sym_ident (ref_symbol sref)))
                            (map sym_ident (filter (instanceOf c) (children t))) = true).
      { apply existsb_exists. exists (sym_ident s). split.
        - apply in_map. apply filter_In. split; assumption.
        - rewrite E. apply Nat.eqb_refl. }
      rewrite Hex in Hseen. discriminate Hseen. }
  intros H. unfold Table.listTopLevelSymbols.
  rewrite !(symbolsOfType_no_dependencies t _ H). reflexivity.
Qed.

End FullOutline.

(** ** Failure of getSymbolOccurrences *)

Section OccurrenceFailure.

Variable getKindFromSymbol : BaseSymbol -> SymbolKind.t.
Variable definitionForContext : option ParseTree -> bool -> option IDefinition.

Local Abbreviation bodyOf := (occurrencesOf getKindFromSymbol definitionForContext).
Local Abbreviation loopOver := (occurrencesLoop getKindFromSymbol definitionForContext).
Local Abbreviation occurrences :=
  (getSymbolOccurrences getKindFromSymbol definitionForContext).

Lemma occurrencesOf_throws (symbolName : string) (r : SymbolRef) :
  bodyOf symbolName r = TypeError
  <-> indexesAnchor symbolName r = true
      /\ isTerminalNode (sym_context (ref_symbol r)) = true.
Proof.
  unfold Table.occurrencesOf, indexesAnchor. cbv zeta.
  destruct (tableOwner r) as [o|]; simpl; [|split; [discriminate|intros [H _]; discriminate H]].
  destruct (sym_context (ref_symbol r)) as [ctx|]; simpl;
    [|split; [discriminate|intros [H _]; discriminate H]].
  destruct (String.eqb (sym_name (ref_symbol r)) symbolName); simpl;
    [|split; [discriminate|intros [H _]; discriminate H]].
  destruct (classEqb (sym_class (ref_symbol r)) FragmentTokenSymbol); simpl.
  - destruct ctx; simpl; split; try discriminate; try (intros [_ H]; discriminate H);
      intros _; split; reflexivity.
  - destruct (classEqb (sym_class (ref_symbol r)) TokenSymbol
              || classEqb (sym_class (ref_symbol r)) RuleSymbol); simpl.
    + destruct ctx; simpl; split; try discriminate; try (intros [_ H]; discriminate H);
        intros _; split; reflexivity.
    + split; [discriminate|intros [H _]; discriminate H].
Qed.

Lemma occurrencesLoop_throws (symbolName : string) (l : list SymbolRef) :
  forall acc,
    loopOver symbolName l acc = TypeError
    <-> Exists (fun r => bodyOf symbolName r = TypeError) l.
Proof.
  induction l as [|r l IH]; intros acc; simpl.
  - split; [discriminate|intros H; inversion H].
  - destruct (bodyOf symbolName r) as [p|] eqn:E.
    + rewrite IH. split.
      * intros H. apply Exists_cons_tl. exact H.
      * intros H. inversion H as [? ? Hr|? ? Hl]; subst; [congruence|exact Hl].
    + split; [intros _; apply Exists_cons_hd; exact E|reflexivity].
Qed.

(** X10. [getSymbolOccurrences] throws exactly when, among the symbols it
    visits, one of a table with an owner bears the name asked for, is a
    fragment, a token or a rule, and is anchored on a terminal node, which
    has no children to index; in every other case it returns a list. *)
Theorem getSymbolOccurrences_throws
        (t : ContextSymbolTable) (symbolName : string) (localOnly : bool) :
  (occurrences t symbolName localOnly = TypeError
   <-> exists r,
       In r (getAllSymbolsSync t AnySymbol localOnly)
       /\ indexesAnchor symbolName r = true
       /\ isTerminalNode (sym_context (ref_symbol r)) = true)
  /\ ((forall r,
          In r (getAllSymbolsSync t AnySymbol localOnly) ->
          indexesAnchor symbolName r = true ->
          isTerminalNode (sym_context (ref_symbol r)) = false) ->
      exists records, occurrences t symbolName localOnly = Normal records).
Proof.
  assert (Hiff : occurrences t symbolName localOnly = TypeError
                 <-> exists r,
                     In r (getAllSymbolsSync t AnySymbol localOnly)
                     /\ indexesAnchor symbolName r = true
                     /\ isTerminalNode (sym_context (ref_symbol r)) = true).
  { unfold Table.getSymbolOccurrences. rewrite occurrencesLoop_throws, Exists_exists.
    split; intros [r [Hin H]]; exists r; (split; [exact Hin|]);
      apply occurrencesOf_throws; exact H. }
  split; [exact Hiff|].
  intros Hall.
  destruct (occurrences t symbolName localOnly) as [records|] eqn:E.
  - exists records. reflexivity.
  - exfalso. destruct (proj1 Hiff eq_refl) as [r [Hin [Hi Ht]]].
    rewrite (Hall r Hin Hi) in Ht. discriminate.
Qed.

End OccurrenceFailure.

(** A rule anchored on the terminal node of its name makes the search for
    its occurrences throw; the search for another name goes through. *)
Lemma getSymbolOccurrences_throws_witness :
  getSymbolOccurrences kindOfClass spanOfInterval tableTerminalAnchor "expr" true
  = TypeError
  /\ exists records,
      getSymbolOccurrences kindOfClass spanOfInterval tableTerminalAnchor "PLUS" true
      = Normal records.
Proof.
  pose proof (getSymbolOccurrences_throws kindOfClass spanOfInterval
                tableTerminalAnchor "expr" true) as [H _].
  pose proof (getSymbolOccurrences_throws kindOfClass spanOfInterval
                tableTerminalAnchor "PLUS" true) as [_ H'].
  split.
  - apply H. exists (refIn tableTerminalAnchor ruleOnTerminal).
    repeat split; [left; reflexivity].
  - apply H'. intros r [<-|[]] Hi. discriminate Hi.
Defined.

(** ** The lexer adaptor *)

Section AdaptorProperties.

Import LexerAdaptor.

Variable v : Vocabulary.
Variable toUpperCase : string -> string.

Local Abbreviation emitOf := (emit v toUpperCase).
Local Abbreviation scanOne := (scanToken v toUpperCase).
Local Abbreviation scanAll := (scanTokens v toUpperCase).
Local Abbreviation kindAt := (referenceType v toUpperCase).

(** X11. The token [emit] hands on is never an ID, provided the two
    reference types differ from ID: an ID becomes a token reference when
    its first character equals its own upper case and a rule reference
    otherwise, every other type passes unchanged; the mode and the mode
    stack are not touched. *)
Theorem emit_resolves_identifiers (lx : Lexer) :
  TOKEN_REF v <> ID v ->
  RULE_REF v <> ID v ->
  snd (emitOf lx) <> ID v
  /\ snd (emitOf lx) = _type (fst (emitOf lx))
  /\ (_type lx = ID v ->
      snd (emitOf lx) = kindAt (inputStream lx) (_tokenStartCharIndex lx))
  /\ (_type lx <> ID v -> snd (emitOf lx) = _type lx)
  /\ mode (fst (emitOf lx)) = mode lx
  /\ _modeStack (fst (emitOf lx)) = _modeStack lx.
Proof.
  intros Ht Hr. unfold LexerAdaptor.emit, LexerAdaptor.referenceType. cbv zeta.
  destruct (Z.eqb_spec (_type lx) (ID v)) as [E|E].
  - destruct (String.eqb _ _); simpl;
      destruct (currentRuleType lx =? INVALID_TYPE)%Z; simpl;
        repeat split; try assumption; try reflexivity; intros; contradiction.
  - destruct (_type lx =? SEMI v)%Z; simpl;
      repeat split; try assumption; try reflexivity; intros; contradiction.
Qed.

Lemma scanToken_inputStream (lx : Lexer) (raw : Z * nat) :
  inputStream (scanOne lx raw) = inputStream lx.
Proof.
  unfold LexerAdaptor.scanToken, LexerAdaptor.emit. cbv zeta. simpl.
  destruct (fst raw =? ID v)%Z; simpl.
  - destruct (String.eqb _ _); simpl;
      destruct (currentRuleType lx =? INVALID_TYPE)%Z; reflexivity.
  - destruct (fst raw =? SEMI v)%Z; reflexivity.
Qed.

Lemma scanToken_inside_rule (lx : Lexer) (raw : Z * nat) :
  currentRuleType lx <> INVALID_TYPE ->
  fst raw <> SEMI v ->
  currentRuleType (scanOne lx raw) = currentRuleType lx.
Proof.
  intros Hin Hraw. unfold LexerAdaptor.scanToken, LexerAdaptor.emit. cbv zeta. simpl.
  destruct (fst raw =? ID v)%Z; simpl.
  - destruct (String.eqb _ _); simpl;
      destruct (Z.eqb_spec (currentRuleType lx) INVALID_TYPE);
        try contradiction; reflexivity.
  - destruct (Z.eqb_spec (fst raw) (SEMI v)); [contradiction|reflexivity].
Qed.

Lemma scanTokens_inside_rule (raws : list (Z * nat)) :
  forall lx,
    currentRuleType lx <> INVALID_TYPE ->
    Forall (fun raw => fst raw <> SEMI v) raws ->
    currentRuleType (scanAll lx raws) = currentRuleType lx.
Proof.
  induction raws as [|raw raws IH]; intros lx Hin Hall; [reflexivity|].
  inversion Hall as [|? ? Hraw Hrest]; subst.
  unfold LexerAdaptor.scanTokens in *. simpl.
  rewrite IH; [apply scanToken_inside_rule; assumption| |exact Hrest].
  rewrite scanToken_inside_rule; assumption.
Qed.

Lemma scanToken_first_identifier (lx : Lexer) (i : nat) :
  currentRuleType lx = INVALID_TYPE ->
  currentRuleType (scanOne lx (ID v, i)) = kindAt (inputStream lx) i.
Proof.
  intros Hout. unfold LexerAdaptor.scanToken, LexerAdaptor.emit,
                 LexerAdaptor.referenceType. cbv zeta. simpl.
  rewrite Z.eqb_refl. destruct (String.eqb _ _); simpl; rewrite Hout; reflexivity.
Qed.

Lemma scanToken_semicolon (lx : Lexer) (j : nat) :
  ID v <> SEMI v ->
  currentRuleType (scanOne lx (SEMI v, j)) = INVALID_TYPE.
Proof.
  intros Hd. unfold LexerAdaptor.scanToken, LexerAdaptor.emit. cbv zeta. simpl.
  destruct (Z.eqb_spec (SEMI v) (ID v)) as [E|E]; [symmetry in E; contradiction|].
  rewrite Z.eqb_refl. reflexivity.
Qed.

(** X12. The kind of the rule being defined is fixed by the first
    identifier after the lexer was outside of a rule: whatever tokens
    follow, as long as none is a semicolon, [currentRuleType] stays the
    type given to that identifier, and the next semicolon puts the lexer
    outside of a rule again.  The reference types must differ from
    [INVALID_TYPE] and ID from the semicolon. *)
Theorem currentRuleType_follows_first_identifier
        (lx : Lexer) (i j : nat) (rest : list (Z * nat)) :
  ID v <> SEMI v ->
  TOKEN_REF v <> INVALID_TYPE ->
  RULE_REF v <> INVALID_TYPE ->
  currentRuleType lx = INVALID_TYPE ->
  Forall (fun raw => fst raw <> SEMI v) rest ->
  currentRuleType (scanAll lx ((ID v, i) :: rest)) = kindAt (inputStream lx) i
  /\ currentRuleType (scanAll lx ((ID v, i) :: rest ++ [(SEMI v, j)])) = INVALID_TYPE.
Proof.
  intros Hd Ht Hr Hout Hrest. split.
  - unfold LexerAdaptor.scanTokens. simpl.
    change (fold_left scanOne rest (scanOne lx (ID v, i)))
      with (scanAll (scanOne lx (ID v, i)) rest).
    rewrite scanTokens_inside_rule; [apply scanToken_first_identifier; exact Hout| |exact Hrest].
    rewrite (scanToken_first_identifier lx i Hout).
    unfold LexerAdaptor.referenceType. destruct (String.eqb _ _); assumption.
  - unfold LexerAdaptor.scanTokens.
    change ((ID v, i) :: rest ++ [(SEMI v, j)])
      with (((ID v, i) :: rest) ++ [(SEMI v, j)]).
    rewrite fold_left_app. simpl. apply scanToken_semicolon. exact Hd.
Qed.

Lemma popMode_pushed (lx : Lexer) (m : Z) :
  popMode (pushMode lx m)
  = Done {| inputStream := inputStream lx;
            _tokenStartCharIndex := _tokenStartCharIndex lx;
            _type := _type lx;
            mode := mode lx;
            _modeStack := _modeStack lx;
            currentRuleType := currentRuleType lx |}.
Proof.
  unfold popMode, pushMode.
  cbn [_modeStack mode inputStream _tokenStartCharIndex _type currentRuleType].
  pose proof (last_last (_modeStack lx) (mode lx) 0%Z) as Hlast.
  pose proof (removelast_last (_modeStack lx) (mode lx)) as Hrest.
  destruct (_modeStack lx ++ [mode lx]) as [|x l] eqn:E.
  - destruct (_modeStack lx); discriminate E.
  - rewrite Hlast, Hrest. reflexivity.
Qed.

(** X13. Closing an argument right after opening it restores the mode and
    the mode stack the lexer had: [handleEndArgument] after
    [handleBeginArgument] never fails, leaves mode, stack and rule kind as
    they were, and types the token as argument content exactly when a mode
    was saved before the argument began; otherwise the type is the one
    [handleBeginArgument] left. *)
Theorem handleEndArgument_after_begin (lx : Lexer) :
  exists lx',
    handleEndArgument v (handleBeginArgument v lx) = Done lx'
    /\ mode lx' = mode lx
    /\ _modeStack lx' = _modeStack lx
    /\ currentRuleType lx' = currentRuleType lx
    /\ _type lx'
       = match _modeStack lx with
         | [] => if (currentRuleType lx =? TOKEN_REF v)%Z then MORE else _type lx
         | _ :: _ => ARGUMENT_CONTENT v
         end.
Proof.
  unfold handleEndArgument, handleBeginArgument.
  destruct (currentRuleType lx =? TOKEN_REF v)%Z.
  - assert (E : popMode (more (pushMode lx (LexerCharSet v)))
                = Done {| inputStream := inputStream lx;
                          _tokenStartCharIndex := _tokenStartCharIndex lx;
                          _type := MORE;
                          mode := mode lx;
                          _modeStack := _modeStack lx;
                          currentRuleType := currentRuleType lx |}).
    { pose proof (popMode_pushed lx (LexerCharSet v)) as H.
      unfold popMode, more, setType, pushMode in *. simpl in *.
      destruct (_modeStack lx ++ [mode lx]); [discriminate H|].
      injection H as H1 H2. rewrite H1, H2. reflexivity. }
    rewrite E. simpl. destruct (_modeStack lx); simpl; eexists; repeat split.
  - rewrite popMode_pushed. simpl.
    destruct (_modeStack lx); simpl; eexists; repeat split.
Qed.

(** X14. [handleEndArgument] and [handleEndAction] fail, with the error of
    [popMode], exactly when no mode is saved.  With a saved mode they make
    it the current mode and drop it from the stack; the token is typed as
    content only if a mode is still saved afterwards, so the end that
    closes the outermost argument or action leaves the type alone. *)
Theorem handleEnd_pops_saved_mode (lx : Lexer) :
  (handleEndArgument v lx = EmptyStack <-> _modeStack lx = [])
  /\ (handleEndAction v lx = EmptyStack <-> _modeStack lx = [])
  /\ (forall rest m,
         _modeStack lx = rest ++ [m] ->
         exists a b,
           handleEndArgument v lx = Done a /\ handleEndAction v lx = Done b
           /\ mode a = m /\ mode b = m
           /\ _modeStack a = rest /\ _modeStack b = rest
           /\ _type a = match rest with [] => _type lx | _ => ARGUMENT_CONTENT v end
           /\ _type b = match rest with [] => _type lx | _ => ACTION_CONTENT v end).
Proof.
  split; [|split].
  - unfold handleEndArgument, popMode. destruct (_modeStack lx) as [|m rest]; simpl.
    + split; reflexivity.
    + destruct (0 <? _)%nat; split; discriminate.
  - unfold handleEndAction, popMode. destruct (_modeStack lx) as [|m rest]; simpl.
    + split; reflexivity.
    + destruct (0 <? _)%nat; split; discriminate.
  - intros rest m Hs. unfold handleEndArgument, handleEndAction, popMode.
    pose proof (last_last rest m 0%Z) as Hlast.
    pose proof (removelast_last rest m) as Hrest.
    rewrite <- Hs in Hlast, Hrest.
    destruct (_modeStack lx) as [|x l] eqn:E; [destruct rest; discriminate Hs|].
    rewrite Hlast, Hrest.
    cbn [_modeStack mode inputStream _tokenStartCharIndex _type currentRuleType].
    destruct rest; simpl; eexists; eexists; repeat split.
Qed.

End AdaptorProperties.

Lemma emit_resolves_identifiers_witness :
  snd (LexerAdaptor.emit sampleVocabulary upperCaseAscii
         (LexerAdaptor.setType lexerAtStart 60)) = 2%Z
  /\ snd (LexerAdaptor.emit sampleVocabulary upperCaseAscii
            (LexerAdaptor.setType lexerInTokenRule 60)) = 1%Z.
Proof.
  pose proof (emit_resolves_identifiers sampleVocabulary upperCaseAscii
                (LexerAdaptor.setType lexerAtStart 60)) as H.
  pose proof (emit_resolves_identifiers sampleVocabulary upperCaseAscii
                (LexerAdaptor.setType lexerInTokenRule 60)) as H'.
  destruct H as [_ [_ [H _]]]; try discriminate.
  destruct H' as [_ [_ [H' _]]]; try discriminate.
  split; [rewrite H|rewrite H']; reflexivity.
Defined.

(** In [expr : ID ;] the rule is a parser rule until the semicolon,
    although ID, a token reference, is emitted on the way. *)
Lemma currentRuleType_follows_first_identifier_witness :
  LexerAdaptor.currentRuleType
    (LexerAdaptor.scanTokens sampleVocabulary upperCaseAscii lexerAtStart
       [(60%Z, 0); (29%Z, 5); (60%Z, 7)]) = 2%Z
  /\ LexerAdaptor.currentRuleType
       (LexerAdaptor.scanTokens sampleVocabulary upperCaseAscii lexerAtStart
          ([(60%Z, 0); (29%Z, 5); (60%Z, 7)] ++ [(32%Z, 10)]))
     = LexerAdaptor.INVALID_TYPE.
Proof.
  apply (currentRuleType_follows_first_identifier sampleVocabulary upperCaseAscii
           lexerAtStart 0 10 [(29%Z, 5); (60%Z, 7)]);
    try discriminate; try reflexivity.
  repeat constructor; discriminate.
Defined.

(** ** The document symbol provider *)

Lemma length_append (a b : string) :
  String.length (String.append a b) = String.length a + String.length b.
Proof. induction a as [|c a IH]; simpl; [reflexivity|]. rewrite IH. reflexivity. Qed.

Lemma length_dashes (n : nat) : String.length (SymbolProvider.dashes n) = n.
Proof. induction n as [|n IH]; simpl; [reflexivity|]. rewrite IH. reflexivity. Qed.

Section ProviderProperties.

Import SymbolProvider.

Variable symbolDescriptionFromEnum : SymbolKind.t -> string.
Variable translateSymbolKind : SymbolKind.t -> nat.

Local Abbreviation informationOf :=
  (symbolInformation symbolDescriptionFromEnum translateSymbolKind).
Local Abbreviation provide :=
  (provideDocumentSymbols symbolDescriptionFromEnum translateSymbolKind).

Lemma provide_from_definitions (symbols : list ISymbolInfo) (s : SymbolInformation) :
  In s (provide symbols) ->
  exists symbol d,
    In symbol symbols /\ info_definition symbol = Some d /\ s = informationOf symbol d.
Proof.
  induction symbols as [|x symbols IH]; simpl; [intros []|].
  destruct (info_definition x) as [d|] eqn:E.
  - intros [<-|H].
    + exists x, d. split; [left; reflexivity|split; [exact E|reflexivity]].
    + destruct (IH H) as [symbol [d' [Hin H']]]. exists symbol, d'.
      split; [right; exact Hin|exact H'].
  - intros H. destruct (IH H) as [symbol [d' [Hin H']]]. exists symbol, d'.
    split; [right; exact Hin|exact H'].
Qed.

(** X15. The provider reports exactly the symbols that have a definition,
    in the order of the backend's list: a symbol without a definition, a
    built-in one, is left out, and the others keep their name, their
    source as the location's file and the editor kind of their kind. *)
Theorem provideDocumentSymbols_skips_undefined (symbols : list ISymbolInfo) :
  let defined := filter (fun symbol => isDefined (info_definition symbol)) symbols in
  map name (provide symbols) = map info_name defined
  /\ map (fun s => uri (location s)) (provide symbols) = map info_source defined
  /\ map kind (provide symbols)
     = map (fun symbol => translateSymbolKind (info_kind symbol)) defined
  /\ List.length (provide symbols) <= List.length symbols.
Proof.
  cbv zeta. induction symbols as [|x symbols [IH1 [IH2 [IH3 IH4]]]]; simpl.
  - repeat split; constructor.
  - destruct (info_definition x); simpl.
    + rewrite IH1, IH2, IH3. repeat split. lia.
    + repeat split; try assumption. lia.
Qed.


(** X17. The description of a lexer mode is padded to a fixed width: when
    the name, the description and one space take less than 80 characters,
    a space and dashes are added so that name and description together
    take exactly 80; a longer text, and the description of every other
    kind, is left as it is. *)
Theorem provideDocumentSymbols_mode_marker
        (symbols : list ISymbolInfo) (s : SymbolInformation) :
  In s (provide symbols) ->
  exists symbol,
    In symbol symbols /\ name s = info_name symbol
    /\ let description := symbolDescriptionFromEnum (info_kind symbol) in
       let total := String.length (info_name symbol) + String.length description + 1 in
       (info_kind symbol = SymbolKind.LexerMode -> total < 80 ->
        containerName s
        = String.append description (String.append " " (dashes (80 - total)))
        /\ String.length (name s) + String.length (containerName s) = 80)
       /\ (info_kind symbol <> SymbolKind.LexerMode \/ 80 <= total ->
           containerName s = description).
Proof.
  intros H. destruct (provide_from_definitions symbols s H) as [symbol [d [Hin [Hd ->]]]].
  exists symbol. split; [exact Hin|]. split; [reflexivity|].
  cbv zeta. unfold SymbolProvider.symbolInformation. cbv zeta.
  cbn [name containerName].
  destruct (SymbolKind.eq_dec (info_kind symbol) SymbolKind.LexerMode) as [K|K];
    cbn [andb].
  - destruct (Nat.ltb_spec
                (String.length (info_name symbol)
                 + String.length (symbolDescriptionFromEnum (info_kind symbol)) + 1) 80)
      as [Hlt|Hge].
    + split.
      * intros _ _. split; [reflexivity|].
        rewrite !length_append, length_dashes. cbn [String.length]. lia.
      * intros [Hk|Hk]; [contradiction|lia].
    + split; [intros _ Hlt; lia|reflexivity].
  - split; [intros Hk; contradiction|reflexivity].
Qed.

End ProviderProperties.


Lemma provideDocumentSymbols_mode_marker_witness :
  map SymbolProvider.name
      (SymbolProvider.provideDocumentSymbols sampleDescription sampleEditorKind
         [runtimeRecord; modeRecord]) = ["Island"]
  /\ exists symbol,
      In symbol [runtimeRecord; modeRecord]
      /\ "Island" = info_name symbol
      /\ let description := sampleDescription (info_kind symbol) in
         let total := String.length (info_name symbol) + String.length description + 1 in
         (info_kind symbol = SymbolKind.LexerMode -> total < 80 ->
          SymbolProvider.containerName
            (SymbolProvider.symbolInformation sampleDescription sampleEditorKind modeRecord
               {| def_text := "mode Island;";
                  def_range := {| range_start := {| column := 0; row := 12 |};
                                  range_end := {| column := 11; row := 12 |} |} |})
          = String.append description
                          (String.append " " (SymbolProvider.dashes (80 - total)))
          /\ String.length "Island"
             + String.length
                 (SymbolProvider.containerName
                    (SymbolProvider.symbolInformation sampleDescription sampleEditorKind
                       modeRecord
                       {| def_text := "mode Island;";
                          def_range := {| range_start := {| column := 0; row := 12 |};
                                          range_end := {| column := 11; row := 12 |} |} |}))
             = 80)
         /\ (info_kind symbol <> SymbolKind.LexerMode \/ 80 <= total ->
             SymbolProvider.containerName
               (SymbolProvider.symbolInformation sampleDescription sampleEditorKind
                  modeRecord
                  {| def_text := "mode Island;";
                     def_range := {| range_start := {| column := 0; row := 12 |};
                                     range_end := {| column := 11; row := 12 |} |} |})
             = description).
Proof.
  split; [reflexivity|].
  apply (provideDocumentSymbols_mode_marker sampleDescription sampleEditorKind
           [runtimeRecord; modeRecord]
           (SymbolProvider.symbolInformation sampleDescription sampleEditorKind modeRecord
              {| def_text := "mode Island;";
                 def_range := {| range_start := {| column := 0; row := 12 |};
                                 range_end := {| column := 11; row := 12 |} |} |})).
  left. reflexivity.
Defined.
